(** * go-transform: the string transformation engine of [transform.go]

    A shallow embedding of package [transform] (handlers registry, rule
    parser, expansion engine, lookup chain and pipeline) together with the
    parts of the Go standard library it calls, and the proofs of the
    properties stated about it. *)

From Stdlib Require Import ZArith Ascii String Lia Bool.
From stdpp Require Import base option list gmap strings.

Set Default Proof Using "Type".

(** ** Go values

    A Go [string] is an immutable sequence of bytes: Rocq's [string] (a list
    of 8-bit [ascii]).  A Go [int] is a [Z]. *)

Definition byte_val (c : ascii) : Z := Z.of_N (N_of_ascii c).
Definition byte_chr (z : Z) : ascii := ascii_of_N (Z.to_N z).

(** [len(s)] *)
Definition len (s : string) : Z := Z.of_nat (String.length s).

Fixpoint str_drop (n : nat) (s : string) : string :=
  match n, s with
  | O, _ => s
  | S _, "" => ""
  | S n', String _ s' => str_drop n' s'
  end.

Fixpoint str_take (n : nat) (s : string) : string :=
  match n, s with
  | O, _ => ""
  | S _, "" => ""
  | S n', String c s' => String c (str_take n' s')
  end.

(** What running a piece of Go code gives: a value, or a run-time panic. *)
Inductive Outcome (A : Type) : Type :=
| Ret (a : A)
| Panic (msg : string).
Arguments Ret {A} a.
Arguments Panic {A} msg.

(** [s[lo:hi]]: panics unless [0 <= lo <= hi <= len(s)]. *)
Definition slice (s : string) (lo hi : Z) : Outcome string :=
  if ((0 <=? lo) && (lo <=? hi) && (hi <=? len s))%Z
  then Ret (str_take (Z.to_nat (hi - lo)) (str_drop (Z.to_nat lo) s))
  else Panic "slice bounds out of range".

(** [m[i]] on a slice of ints: panics when [i] is out of range. *)
Definition index (m : list Z) (i : Z) : Outcome Z :=
  if (i <? 0)%Z then Panic "index out of range"
  else match m !! Z.to_nat i with
       | Some x => Ret x
       | None => Panic "index out of range"
       end.

(** ** Package [errors] (github.com/pkg/errors) and the error values met here *)

Inductive error : Type :=
| errors_New (msg : string)
| errors_Wrap (cause : error) (msg : string)
| syntax_Error (code : string) (expr : string).

(** The [Error()] method: [Wrap] prefixes the cause with its message. *)
Fixpoint Error (e : error) : string :=
  match e with
  | errors_New msg => msg
  | errors_Wrap cause msg => msg +:+ ": " +:+ Error cause
  | syntax_Error code expr =>
      "error parsing regexp: " +:+ code +:+ ": `" +:+ expr +:+ "`"
  end.

(** ** Package [unicode/utf8] *)

Module utf8.
Local Open Scope Z_scope.

Definition RuneError : Z := 0xFFFD.
Definition RuneSelf : Z := 0x80.
Definition MaxRune : Z := 0x10FFFF.

(** The tables [first] and [acceptRanges]: for a leading byte, the length
    of the sequence it starts and the range accepted for the second byte;
    [None] for a byte that starts no multi-byte sequence. *)
Definition first (b0 : Z) : option (nat * Z * Z) :=
  if (0xC2 <=? b0) && (b0 <=? 0xDF) then Some (2%nat, 0x80, 0xBF)
  else if b0 =? 0xE0 then Some (3%nat, 0xA0, 0xBF)
  else if b0 =? 0xED then Some (3%nat, 0x80, 0x9F)
  else if (0xE1 <=? b0) && (b0 <=? 0xEF) then Some (3%nat, 0x80, 0xBF)
  else if b0 =? 0xF0 then Some (4%nat, 0x90, 0xBF)
  else if (0xF1 <=? b0) && (b0 <=? 0xF3) then Some (4%nat, 0x80, 0xBF)
  else if b0 =? 0xF4 then Some (4%nat, 0x80, 0x8F)
  else None.

(** A continuation byte [10xxxxxx]. *)
Definition cont (b : Z) : bool := (0x80 <=? b) && (b <=? 0xBF).

(** [DecodeRuneInString]: the first rune of [s] and its width in bytes;
    [(RuneError, 0)] for the empty string and [(RuneError, 1)] for an
    invalid encoding. *)
Definition DecodeRuneInString (s : string) : Z * nat :=
  match s with
  | "" => (RuneError, 0%nat)
  | String c0 s1 =>
    let b0 := byte_val c0 in
    if b0 <? RuneSelf then (b0, 1%nat)
    else match first b0, s1 with
      | None, _ | _, "" => (RuneError, 1%nat)
      | Some (sz, lo, hi), String c1 s2 =>
        let b1 := byte_val c1 in
        if (b1 <? lo) || (hi <? b1) then (RuneError, 1%nat)
        else if (sz <=? 2)%nat then
          (Z.lor (Z.shiftl (Z.land b0 0x1F) 6) (Z.land b1 0x3F), 2%nat)
        else match s2 with
          | "" => (RuneError, 1%nat)
          | String c2 s3 =>
            let b2 := byte_val c2 in
            if negb (cont b2) then (RuneError, 1%nat)
            else if (sz <=? 3)%nat then
              (Z.lor (Z.shiftl (Z.land b0 0x0F) 12)
                 (Z.lor (Z.shiftl (Z.land b1 0x3F) 6) (Z.land b2 0x3F)), 3%nat)
            else match s3 with
              | "" => (RuneError, 1%nat)
              | String c3 _ =>
                let b3 := byte_val c3 in
                if negb (cont b3) then (RuneError, 1%nat)
                else
                  (Z.lor (Z.shiftl (Z.land b0 0x07) 18)
                     (Z.lor (Z.shiftl (Z.land b1 0x3F) 12)
                        (Z.lor (Z.shiftl (Z.land b2 0x3F) 6) (Z.land b3 0x3F))),
                   4%nat)
              end
          end
      end
  end.

(** [RuneStart]: the byte is not a continuation byte. *)
Definition RuneStart (b : Z) : bool := negb (Z.land b 0xC0 =? 0x80).

(** The byte [s[i]], 0 outside the string (never read there). *)
Definition at_ (s : string) (i : Z) : Z :=
  match String.get (Z.to_nat i) s with
  | Some c => byte_val c
  | None => 0
  end.

(** The backwards loop of [DecodeLastRuneInString]:
    [for start--; start >= lim; start-- { if RuneStart(s[start]) { break } }] *)
Fixpoint back (s : string) (lim : Z) (fuel : nat) (start : Z) : Z :=
  match fuel with
  | O => start
  | S fuel' =>
    if start <? lim then start
    else if RuneStart (at_ s start) then start
    else back s lim fuel' (start - 1)
  end.

(** [DecodeLastRuneInString]: the last rune of [s] and its width.  The
    loop looks at no more than [UTFMax - 1] bytes before the last one. *)
Definition DecodeLastRuneInString (s : string) : Z * nat :=
  let end_ := len s in
  if end_ =? 0 then (RuneError, 0%nat)
  else
    let r := at_ s (end_ - 1) in
    if r <? RuneSelf then (r, 1%nat)
    else
      let lim := Z.max 0 (end_ - 4) in
      let start := Z.max 0 (back s lim 4 (end_ - 2)) in
      let '(r, size) := DecodeRuneInString (str_drop (Z.to_nat start) s) in
      if start + Z.of_nat size =? end_ then (r, size) else (RuneError, 1%nat).

(** [AppendRune]/[EncodeRune]: the UTF-8 encoding of [r]; surrogates and
    values out of range are written as [RuneError]. *)
Definition EncodeRune (r : Z) : string :=
  let enc3 (r : Z) :=
    String (byte_chr (Z.lor 0xE0 (Z.shiftr r 12)))
      (String (byte_chr (Z.lor 0x80 (Z.land (Z.shiftr r 6) 0x3F)))
         (String (byte_chr (Z.lor 0x80 (Z.land r 0x3F))) "")) in
  if (0 <=? r) && (r <=? 0x7F) then String (byte_chr r) ""
  else if (0 <=? r) && (r <=? 0x7FF) then
    String (byte_chr (Z.lor 0xC0 (Z.shiftr r 6)))
      (String (byte_chr (Z.lor 0x80 (Z.land r 0x3F))) "")
  else if (r <? 0) || (MaxRune <? r) || ((0xD800 <=? r) && (r <=? 0xDFFF))
  then enc3 RuneError
  else if r <=? 0xFFFF then enc3 r
  else
    String (byte_chr (Z.lor 0xF0 (Z.shiftr r 18)))
      (String (byte_chr (Z.lor 0x80 (Z.land (Z.shiftr r 12) 0x3F)))
         (String (byte_chr (Z.lor 0x80 (Z.land (Z.shiftr r 6) 0x3F)))
            (String (byte_chr (Z.lor 0x80 (Z.land r 0x3F))) ""))).

(** The runes a [for _, r := range s] loop visits: [skip] counts the
    bytes of the current rune still to be passed over. *)
Fixpoint range_from (skip : nat) (s : string) : list Z :=
  match s with
  | "" => []
  | String _ s' =>
    match skip with
    | S k => range_from k s'
    | O => let '(r, w) := DecodeRuneInString s in r :: range_from (w - 1) s'
    end
  end.
Definition range (s : string) : list Z := range_from 0 s.
End utf8.

(** ** Package [unicode] *)

Module unicode.
Local Open Scope Z_scope.

(** [IsSpace]: the Latin-1 switch, then the [White_Space] table. *)
Definition IsSpace (r : Z) : bool :=
  if (0 <=? r) && (r <=? 0xFF) then
    (r =? 0x09) || (r =? 0x0A) || (r =? 0x0B) || (r =? 0x0C) || (r =? 0x0D)
    || (r =? 0x20) || (r =? 0x85) || (r =? 0xA0)
  else
    (r =? 0x1680) || ((0x2000 <=? r) && (r <=? 0x200A)) || (r =? 0x2028)
    || (r =? 0x2029) || (r =? 0x202F) || (r =? 0x205F) || (r =? 0x3000).
End unicode.

(** ** Package [strings]

    [Index], [Contains], [Count], [SplitN], [Split] and [ReplaceAll] are
    modelled for a non-empty separator or pattern, which is all that
    [transform.go] passes ([":"], [","] and ["%s"]); Go's special case of an
    empty separator (cutting between runes) is left out. *)

Module strings.
Local Open Scope Z_scope.

Fixpoint str_map (f : ascii -> ascii) (s : string) : string :=
  match s with
  | "" => ""
  | String c s' => String (f c) (str_map f s')
  end.

Fixpoint str_forallb (p : ascii -> bool) (s : string) : bool :=
  match s with
  | "" => true
  | String c s' => p c && str_forallb p s'
  end.

(** [Map]: every rune of [s] (an invalid byte counts as [RuneError]) is
    replaced by the encoding of its image; a negative image is dropped.
    Go's version returns [s] itself when no rune changes, which is the
    same string. *)
Definition Map (mapping : Z -> Z) (s : string) : string :=
  foldr (fun r acc =>
           let r' := mapping r in
           if r' <? 0 then acc else utf8.EncodeRune r' +:+ acc)
        "" (utf8.range s).

Definition is_ascii (c : ascii) : bool := byte_val c <? utf8.RuneSelf.

Definition upper_byte (c : ascii) : ascii :=
  let b := byte_val c in
  if (0x61 <=? b) && (b <=? 0x7A) then byte_chr (b - 0x20) else c.

Definition lower_byte (c : ascii) : ascii :=
  let b := byte_val c in
  if (0x41 <=? b) && (b <=? 0x5A) then byte_chr (b + 0x20) else c.

(** [ToUpper] and [ToLower]: a byte loop for a string of ASCII bytes,
    otherwise [Map] with the rune mapping of package [unicode], which is
    a parameter here. *)
Definition ToUpper (unicode_ToUpper : Z -> Z) (s : string) : string :=
  if str_forallb is_ascii s then str_map upper_byte s
  else Map unicode_ToUpper s.

Definition ToLower (unicode_ToLower : Z -> Z) (s : string) : string :=
  if str_forallb is_ascii s then str_map lower_byte s
  else Map unicode_ToLower s.

(** [TrimLeftFunc(s, unicode.IsSpace)]: [s] from its first rune that is
    not white space. *)
Fixpoint trim_left_from (skip : nat) (s : string) : string :=
  match s with
  | "" => ""
  | String _ s' =>
    match skip with
    | S k => trim_left_from k s'
    | O =>
      let '(r, w) := utf8.DecodeRuneInString s in
      if unicode.IsSpace r then trim_left_from (w - 1) s' else s
    end
  end.
Definition TrimLeftSpace (s : string) : string := trim_left_from 0 s.

(** [lastIndexFunc(s, unicode.IsSpace, false)]: the index of the last
    rune that is not white space, [-1] if there is none.  Every turn
    lowers [i] by at least one, so [len(s)] turns are enough. *)
Fixpoint last_non_space (s : string) (fuel : nat) (i : Z) : Z :=
  match fuel with
  | O => -1
  | S fuel' =>
    if i <=? 0 then -1
    else
      let '(r, size) := utf8.DecodeLastRuneInString (str_take (Z.to_nat i) s) in
      let i := i - Z.of_nat size in
      if unicode.IsSpace r then last_non_space s fuel' i else i
  end.

(** [TrimRightFunc(s, unicode.IsSpace)] *)
Definition TrimRightSpace (s : string) : string :=
  let i := last_non_space s (String.length s) (len s) in
  let i :=
    if (0 <=? i) && (utf8.RuneSelf <=? utf8.at_ s i)
    then i + Z.of_nat (snd (utf8.DecodeRuneInString (str_drop (Z.to_nat i) s)))
    else i + 1 in
  str_take (Z.to_nat i) s.

(** [TrimSpace]: leading and trailing white space, as Unicode defines
    it, removed.  (Go first runs over ASCII bytes and then falls back to
    these two functions; the result is the same.) *)
Definition TrimSpace (s : string) : string :=
  TrimRightSpace (TrimLeftSpace s).

(** [Index]: the position of the first occurrence of [sep], or [-1]. *)
Fixpoint Index (s sep : string) : Z :=
  if String.prefix sep s then 0
  else match s with
       | "" => -1
       | String _ s' => let i := Index s' sep in if i <? 0 then -1 else i + 1
       end.

Definition Contains (s substr : string) : bool := 0 <=? Index s substr.

(** The scan behind [Split] and [SplitN]: [cuts] bounds the number of
    separators still honoured ([None]: no bound), [cur] is the current
    piece in reverse and [skip] the bytes of a separator still to pass. *)
Fixpoint genSplit (sep : string) (cuts : option nat) (skip : nat)
    (cur : string) (s : string) : list string :=
  match s with
  | "" => [String.rev cur]
  | String c s' =>
    match skip with
    | S k => genSplit sep cuts k cur s'
    | O =>
      match cuts with
      | Some O => [String.rev_app cur s]
      | _ =>
        if String.prefix sep s
        then String.rev cur
             :: genSplit sep (pred <$> cuts) (String.length sep - 1) "" s'
        else genSplit sep cuts 0 (String c cur) s'
      end
    end
  end.

(** [SplitN(s, sep, n)]: at most [n] pieces for [n > 0], all of them
    for [n < 0], none for [n = 0]. *)
Definition SplitN (s sep : string) (n : Z) : list string :=
  if n =? 0 then []
  else if n <? 0 then genSplit sep None 0 "" s
  else genSplit sep (Some (Z.to_nat (n - 1))) 0 "" s.

Definition Split (s sep : string) : list string := SplitN s sep (-1).

(** The scan behind [ReplaceAll]: the occurrences of [old], leftmost
    first and not overlapping, are replaced by [new]. *)
Fixpoint replace_from (old new : string) (skip : nat) (s : string) : string :=
  match s with
  | "" => ""
  | String c s' =>
    match skip with
    | S k => replace_from old new k s'
    | O =>
      if String.prefix old s
      then new +:+ replace_from old new (String.length old - 1) s'
      else String c (replace_from old new 0 s')
    end
  end.

Definition ReplaceAll (s old new : string) : string :=
  if decide (old = new) then s else replace_from old new 0 s.

(** [Join] *)
Fixpoint Join (elems : list string) (sep : string) : string :=
  match elems with
  | [] => ""
  | [e] => e
  | e :: es => e +:+ sep +:+ Join es sep
  end.
End strings.

(** ** Package [regexp]

    A compiled [*regexp.Regexp] is known through the three methods
    [transform.go] calls on it.  [FindAllStringSubmatchIndex(s, -1)] gives,
    for each successive non-overlapping match, the slice of index pairs
    [[m0; m1; g1lo; g1hi; ...]]; the pair of a group that took no part in
    the match is [-1; -1]. *)

Record Regexp : Type := {
  re_String : string;
  re_SubexpIndex : string -> Z;
  re_FindAllStringSubmatchIndex : string -> list (list Z);
}.

(** ** What the package takes from outside

    [Env] is the state of the process outside the package: the environment
    variables ([environ]) and whatever the caller's own funcs touch.  The
    case tables of package [unicode] and the compiler of package [regexp]
    are parameters as well. *)

Class GoRuntime : Type := {
  Env : Type;
  environ : Env -> gmap string string;
  unicode_ToUpper : Z -> Z;
  unicode_ToLower : Z -> Z;
  regexp_Compile : string -> Regexp + error;
}.

(** [os.Getenv]: the value of the variable, empty when it is not set. *)
Definition os_Getenv `{GoRuntime} (e : Env) (key : string) : string :=
  default "" (environ e !! key).

(** ** Package [transform] *)

(** [ShellVar] matches [${KEY}]. *)
Definition ShellVar : string := "(?i)\${\s*(?P<key>[A-Z0-9_]+)\s*}".

Section transform.
Context `{GoRuntime}.

(** [type LookupFunc func(string) (string, bool)]: a func value that may
    read the process state, as the lookups of the package do; a lookup of
    the caller that writes somewhere is outside of this type.  In a list,
    [None] is the nil func. *)
Definition LookupFunc : Type := Env -> string -> string * bool.

(** The five methods of [*Transform] that are transformations. *)
Inductive method : Type := mNOP | mTrim | mDowncase | mUpcase | mCapitalize.

(** [type TransformFunc func(string) (string, error)].  The func values
    that occur are the method values [t.NOP], ..., the func literal that
    [Expand] returns (with what it captured: [re], [idx] and the variable
    [ff], a cell of the store since the literal assigns to it), and funcs
    of the caller, which may change the process state.  A func of the
    caller that holds [t] and writes to it is outside of [Func]: what is
    proved of caller funcs is proved of those that leave the [Transform]
    and the captured variables alone.  [None] is nil in
    [option TransformFunc]. *)
Inductive TransformFunc : Type :=
| MethodValue (m : method)
| ExpandFunc (re : Regexp) (idx : Z) (ff : nat)
| Func (f : string -> Env -> (string * option error) * Env).

(** [type Handlers map[string]TransformFunc]; [None] is the nil map. *)
Definition Handlers : Type := option (gmap string (option TransformFunc)).

(** [type Transform struct] *)
Record Transform : Type := {
  t_Handlers : Handlers;
  t_Lookups : list (option LookupFunc);
  t_Rules : list (option TransformFunc);
}.

(** The store: the [Transform] that [t] points to, the captured [ff] of
    every func literal made by [t.Expand], and the process state. *)
Record World : Type := {
  self : Transform;
  captured : list (list (option LookupFunc));
  env : Env;
}.

Definition M (A : Type) : Type := World -> Outcome (A * World).

Definition ret {A} (a : A) : M A := fun w => Ret (a, w).
Definition bind {A B} (m : M A) (k : A -> M B) : M B :=
  fun w => match m w with
           | Ret (a, w') => k a w'
           | Panic msg => Panic msg
           end.
Definition lift {A} (o : Outcome A) : M A :=
  fun w => match o with
           | Ret a => Ret (a, w)
           | Panic msg => Panic msg
           end.
Definition get_self : M Transform := fun w => Ret (self w, w).
Definition set_self (t : Transform) : M unit :=
  fun w => Ret (tt, {| self := t; captured := captured w; env := env w |}).

Notation "'do' x <- e ; k" := (bind e (fun x => k))
  (at level 10, x name, e at level 100, k at level 200).

(** [type TransformOption func(t *Transform)] *)
Definition TransformOption : Type := M unit.

(** [h[tag]]: nil when the key is absent (or mapped to nil). *)
Definition handlers_get (h : Handlers) (tag : string) : option TransformFunc :=
  match h with
  | None => None
  | Some m => default None (m !! tag)
  end.

Definition Lookup (ff : list (option LookupFunc)) : TransformOption :=
  do t <- get_self;
  set_self {| t_Handlers := t_Handlers t;
              t_Lookups := t_Lookups t ++ ff;
              t_Rules := t_Rules t |}.

Definition Handler (tag : string) (f : option TransformFunc) : TransformOption :=
  do t <- get_self;
  if decide (tag <> "") then
    let tag := strings.ToLower unicode_ToLower tag in
    let h := default ∅ (t_Handlers t) in
    set_self {| t_Handlers :=
                  Some (match f with
                        | None => delete tag h
                        | Some _ => <[tag := f]> h
                        end);
                t_Lookups := t_Lookups t;
                t_Rules := t_Rules t |}
  else ret tt.

Definition Rule (ff : list (option TransformFunc)) : TransformOption :=
  do t <- get_self;
  set_self {| t_Handlers := t_Handlers t;
              t_Lookups := t_Lookups t;
              t_Rules := t_Rules t ++ ff |}.

Definition ResetHandlers : M unit :=
  do t <- get_self;
  set_self {| t_Handlers :=
                Some (<["" := Some (MethodValue mNOP)]>
                     (<["nop" := Some (MethodValue mNOP)]>
                     (<["trim" := Some (MethodValue mTrim)]>
                     (<["downcase" := Some (MethodValue mDowncase)]>
                     (<["upcase" := Some (MethodValue mUpcase)]>
                     (<["capitalize" := Some (MethodValue mCapitalize)]> ∅))))));
              t_Lookups := t_Lookups t;
              t_Rules := t_Rules t |}.

Definition ResetLookups (ff : list (option LookupFunc)) : M unit :=
  do t <- get_self;
  set_self {| t_Handlers := t_Handlers t; t_Lookups := ff; t_Rules := t_Rules t |}.

Definition ResetRules (ff : list (option TransformFunc)) : M unit :=
  do t <- get_self;
  set_self {| t_Handlers := t_Handlers t; t_Lookups := t_Lookups t; t_Rules := ff |}.

(** The five transformations.  The receiver is not used. *)
Definition NOP (s : string) : string * option error := (s, None).

Definition Trim (s : string) : string * option error :=
  (strings.TrimSpace s, None).

Definition Downcase (s : string) : string * option error :=
  (strings.ToLower unicode_ToLower s, None).

Definition Upcase (s : string) : string * option error :=
  (strings.ToUpper unicode_ToUpper s, None).

(** [s[:1]] and [s[1:]] cut after the first byte. *)
Definition Capitalize (s : string) : string * option error :=
  if decide (s = "") then ("", None)
  else (strings.ToUpper unicode_ToUpper (str_take 1 s)
          +:+ strings.ToLower unicode_ToLower (str_drop 1 s), None).

Definition method_call (m : method) : string -> string * option error :=
  match m with
  | mNOP => NOP
  | mTrim => Trim
  | mDowncase => Downcase
  | mUpcase => Upcase
  | mCapitalize => Capitalize
  end.

(** *** Lookups *)

(** [LookupHandlers(m)]: the map is read, never written; [None] is nil. *)
Definition LookupHandlers (m : option (gmap string string)) : LookupFunc :=
  let m := default ∅ m in
  fun _ name =>
    match m !! name with
    | Some val => (val, true)
    | None => ("", false)
    end.

Definition LookupEnv : LookupFunc :=
  fun e name =>
    let val := os_Getenv e name in
    if decide (val <> "") then (val, true) else ("", false).

Definition LookupStatic (val : string) : LookupFunc :=
  fun _ name =>
    if strings.Contains val "%s"
    then (strings.ReplaceAll val "%s" name, true)
    else (val, true).

(** *** Expansion *)

(** The inner loop of the func literal of [Expand]:
    [for _, f := range ff { if v, ok := f(key); ok { val = v; break } }],
    giving [val] (["" ] when no lookup reports the key). *)
Fixpoint resolve (ff : list (option LookupFunc)) (key : string) (e : Env)
    : Outcome string :=
  match ff with
  | [] => Ret ""
  | None :: _ => Panic "invalid memory address or nil pointer dereference"
  | Some f :: ff' =>
    let '(v, ok) := f e key in
    if ok then Ret v else resolve ff' key e
  end.

Definition obind {A B} (o : Outcome A) (k : A -> Outcome B) : Outcome B :=
  match o with
  | Ret a => k a
  | Panic msg => Panic msg
  end.

(** The outer loop, [for _, m := range matches], with its variables [s2]
    and [pos], and the two statements after it. *)
Fixpoint expand_loop (idx : Z) (ff : list (option LookupFunc)) (e : Env)
    (s : string) (matches : list (list Z)) (s2 : string) (pos : Z)
    : Outcome (string * option error) :=
  match matches with
  | [] =>
    obind (slice s pos (len s)) (fun rest =>
    Ret (s2 +:+ rest, None))
  | m :: matches' =>
    obind (index m (idx * 2)) (fun lo =>
    obind (index m (idx * 2 + 1)) (fun hi =>
    obind (slice s lo hi) (fun key =>
    obind (resolve ff key e) (fun val =>
    if decide (val = "") then
      Ret ("", Some (errors_New ("could not resolve variable: " +:+ key)))
    else
      obind (index m 0) (fun m0 =>
      obind (slice s pos m0) (fun before =>
      obind (index m 1) (fun m1 =>
      expand_loop idx ff e s matches' (s2 +:+ before +:+ val) m1)))))))
  end.

(** The captured variable [ff] of the func literal whose cell is [c]. *)
Definition captured_ff (c : nat) (w : World) : list (option LookupFunc) :=
  default [] (captured w !! c).

(** [if len(ff) == 0 { ff = t.Lookups }] *)
Definition assign_lookups (c : nat) (w : World) : World :=
  if decide (length (captured_ff c w) = 0%nat)
  then {| self := self w;
          captured := <[c := t_Lookups (self w)]> (captured w);
          env := env w |}
  else w.

(** A call of the func literal returned by [Expand]: [c] is the cell of
    its captured [ff], which the call overwrites with [t.Lookups] when it
    is empty and the input has a match. *)
Definition ExpandFunc_call (re : Regexp) (idx : Z) (c : nat) (s : string)
    : M (string * option error) :=
  fun w =>
    let matches := re_FindAllStringSubmatchIndex re s in
    if decide (length matches = 0%nat) then Ret ((s, None), w)
    else
      let w := assign_lookups c w in
      match expand_loop idx (captured_ff c w) (env w) s matches "" 0 with
      | Ret r => Ret (r, w)
      | Panic msg => Panic msg
      end.

(** [func (t *Transform) Expand(re *regexp.Regexp, ff ...LookupFunc)]:
    the func literal returned gets a new cell, which holds the lookups
    given, as they are at the call of [Expand].  A caller that passes a
    slice with [xs...] and later writes to its elements is outside of
    this model: the cell is only written by the func literal itself. *)
Definition Expand (re : Regexp) (ff : list (option LookupFunc))
    : M (option TransformFunc * option error) :=
  let idx := re_SubexpIndex re "key" in
  if decide (idx = (-1)%Z) then
    ret (None,
         Some (errors_New
                 ("regexp is missing named parenthesized subexpression (?P<key>...): "
                  +:+ re_String re)))
  else
    fun w =>
      Ret ((Some (ExpandFunc re idx (length (captured w))), None),
           {| self := self w; captured := captured w ++ [ff]; env := env w |}).

(** Calling a func value. *)
Definition call (f : TransformFunc) (s : string) : M (string * option error) :=
  match f with
  | MethodValue m => ret (method_call m s)
  | ExpandFunc re idx c => ExpandFunc_call re idx c s
  | Func g =>
    fun w =>
      let '(r, e) := g s (env w) in
      Ret (r, {| self := self w; captured := captured w; env := e |})
  end.

(** *** Rule parser *)

(** [parts[i]] on a slice of strings. *)
Definition part (parts : list string) (i : nat) : Outcome string :=
  match parts !! i with
  | Some p => Ret p
  | None => Panic "index out of range"
  end.

Definition ParseStringRule (rule : string)
    : M (option TransformFunc * option error) :=
  let parts := strings.SplitN rule ":" 2 in
  do p0 <- lift (part parts 0);
  let tag := strings.ToLower unicode_ToLower (strings.TrimSpace p0) in
  do t <- get_self;
  let h := Some (default ∅ (t_Handlers t)) in
  let f := handlers_get h tag in
  match f with
  | Some _ => ret (f, None)
  | None =>
    if decide (tag = "expand") then
      if decide (length parts = 1%nat) then
        ret (None, Some (errors_New "expand: missing regex"))
      else
        do p1 <- lift (part parts 1);
        match regexp_Compile p1 with
        | inr err => ret (None, Some (errors_Wrap err ("regexp: " +:+ p1)))
        | inl re =>
          do r <- Expand re [];
          match snd r with
          | Some err => ret (None, Some err)
          | None => ret (fst r, None)
          end
        end
    else ret (None, Some (errors_New ("unknown transform: " +:+ tag)))
  end.

(** [t.Rules = append(t.Rules, f)] *)
Definition append_rule (f : option TransformFunc) : M unit :=
  do t <- get_self;
  set_self {| t_Handlers := t_Handlers t;
              t_Lookups := t_Lookups t;
              t_Rules := t_Rules t ++ [f] |}.

(** The inner loop of [AddStringRules], over the pieces of one argument;
    the result is the error that makes the method return, if any. *)
Fixpoint AddStringRules_pieces (pieces : list string) : M (option error) :=
  match pieces with
  | [] => ret None
  | s :: pieces' =>
    let s := strings.TrimSpace s in
    if decide (s <> "") then
      do r <- ParseStringRule s;
      match snd r with
      | Some err => ret (Some err)
      | None => do _ <- append_rule (fst r); AddStringRules_pieces pieces'
      end
    else AddStringRules_pieces pieces'
  end.

Fixpoint AddStringRules (rules : list string) : M (option error) :=
  match rules with
  | [] => ret None
  | r :: rules' =>
    do err <- AddStringRules_pieces (strings.Split r ",");
    match err with
    | Some _ => ret err
    | None => AddStringRules rules'
    end
  end.

(** *** Pipeline *)

(** The loop of [Transform]: [for _, f := range ff]. *)
Fixpoint Transform_loop (ff : list (option TransformFunc)) (s : string)
    : M (string * option error) :=
  match ff with
  | [] => ret (s, None)
  | None :: ff' => Transform_loop ff' s
  | Some f :: ff' =>
    do r <- call f s;
    match snd r with
    | Some err => ret ("", Some (errors_Wrap err "rule"))
    | None => Transform_loop ff' (fst r)
    end
  end.

(** The method [Transform] of [*Transform]. *)
Definition Transform_Transform (s : string) (ff : list (option TransformFunc))
    : M (string * option error) :=
  do t <- get_self;
  let ff := if decide (length ff = 0%nat) then t_Rules t else ff in
  Transform_loop ff s.

(** *** Construction *)

Definition ExpandEnv : TransformOption :=
  do r <- ParseStringRule ("expand:" +:+ ShellVar);
  match snd r with
  | Some err => fun _ => Panic (Error err)
  | None =>
    do _ <- append_rule (fst r);
    Lookup [Some LookupEnv]
  end.

Fixpoint apply_options (ff : list TransformOption) : M unit :=
  match ff with
  | [] => ret tt
  | f :: ff' => do _ <- f; apply_options ff'
  end.

Definition Reset (ff : list TransformOption) : M unit :=
  do _ <- ResetHandlers;
  do _ <- ResetLookups [];
  do _ <- ResetRules [];
  apply_options ff.

(** [New]: [t] points to a zero [Transform], which is then reset. *)
Definition New (ff : list TransformOption) : M unit :=
  do _ <- set_self {| t_Handlers := None; t_Lookups := []; t_Rules := [] |};
  Reset ff.
End transform.

Notation "'do' x <- e ; k" := (bind e (fun x => k))
  (at level 10, x name, e at level 100, k at level 200).

(** ** The vocabulary of the specification *)

Section specification.
Context `{GoRuntime}.

(** The built-in transformation that a tag names after a reset. *)
Definition builtin (tag : string) : option method :=
  if decide (tag = "") then Some mNOP
  else if decide (tag = "nop") then Some mNOP
  else if decide (tag = "trim") then Some mTrim
  else if decide (tag = "downcase") then Some mDowncase
  else if decide (tag = "upcase") then Some mUpcase
  else if decide (tag = "capitalize") then Some mCapitalize
  else None.

(** One match in an input: the text [o_gap] since the previous match (or
    the start), then the matched span, made of the capture [o_key] of
    group [key] and what the match has before and after it. *)
Record occurrence : Type := {
  o_gap : string;
  o_before : string;
  o_key : string;
  o_after : string;
}.

(** The input made of these matches and the text [rest] after the last one. *)
Fixpoint text (os : list occurrence) (rest : string) : string :=
  match os with
  | [] => rest
  | o :: os' =>
    o_gap o +:+ (o_before o +:+ o_key o +:+ o_after o) +:+ text os' rest
  end.

(** The same input with every matched span replaced by [val] of its key. *)
Fixpoint replaced (val : string -> string) (os : list occurrence)
    (rest : string) : string :=
  match os with
  | [] => rest
  | o :: os' => o_gap o +:+ val (o_key o) +:+ replaced val os' rest
  end.

(** The index slices [ms] report exactly the matches [os], the first of
    which starts [len (o_gap o)] bytes after offset [off]. *)
Fixpoint located (idx : Z) (off : Z) (os : list occurrence)
    (ms : list (list Z)) : Prop :=
  match os, ms with
  | [], [] => True
  | o :: os', m :: ms' =>
    let m0 := (off + len (o_gap o))%Z in
    let lo := (m0 + len (o_before o))%Z in
    let hi := (lo + len (o_key o))%Z in
    let m1 := (hi + len (o_after o))%Z in
    index m 0 = Ret m0 /\ index m 1 = Ret m1
    /\ index m (idx * 2) = Ret lo /\ index m (idx * 2 + 1) = Ret hi
    /\ located idx m1 os' ms'
  | _, _ => False
  end.

(** Resolution of a key: the lookups are asked in order, and the value of
    the first one that reports [found] is the answer. *)
Definition first_found (ff : list LookupFunc) (e : Env) (key : string)
    : option string :=
  fst <$> head (filter (fun r => snd r = true) ((fun f => f e key) <$> ff)).

(** The value of a key: the first found one, [""] when there is none. *)
Definition value (ff : list LookupFunc) (e : Env) (key : string) : string :=
  default "" (first_found ff e key).

(** No lookup finds the key, or the first that does gives [""]. *)
Definition unresolved (ff : list LookupFunc) (e : Env) (key : string) : Prop :=
  first_found ff e key = None \/ first_found ff e key = Some "".

(** The sub-rules of the arguments of [AddStringRules]: every argument cut
    at its commas, every piece trimmed, the empty pieces left out. *)
Definition subrules (rules : list string) : list string :=
  filter (fun s => s <> "")
         (strings.TrimSpace <$> (rules ≫= fun r => strings.Split r ",")).

(** Parsing the sub-rules one after the other and appending each parsed
    func to [Rules], up to the first one that does not parse. *)
Fixpoint add_parsed (subs : list string) : M (option error) :=
  match subs with
  | [] => ret None
  | s :: subs' =>
    do r <- ParseStringRule s;
    match snd r with
    | Some err => ret (Some err)
    | None => do _ <- append_rule (fst r); add_parsed subs'
    end
  end.

(** The funcs a call of [Transform] goes through: the ones given, or the
    default [Rules] when none is given. *)
Definition functions_used (ff : list (option TransformFunc)) (w : World)
    : list (option TransformFunc) :=
  match ff with
  | [] => t_Rules (self w)
  | _ => ff
  end.

(** [steps ff s w s' w']: applying the funcs [ff] one after the other,
    nil ones skipped, none failing, takes the string [s] and the store
    [w] to [s'] and [w']. *)
Inductive steps : list (option TransformFunc) -> string -> World
                  -> string -> World -> Prop :=
| steps_nil s w : steps [] s w s w
| steps_skip ff s w s' w' :
    steps ff s w s' w' -> steps (None :: ff) s w s' w'
| steps_call f ff s w s1 w1 s' w' :
    call f s w = Ret ((s1, None), w1) ->
    steps ff s1 w1 s' w' ->
    steps (Some f :: ff) s w s' w'.

(** The two shapes of a rule: a tag alone, or a tag, the first colon and
    an argument. *)
Inductive rule_shape : string -> string -> option string -> Prop :=
| shape_tag rule :
    strings.Contains rule ":" = false -> rule_shape rule rule None
| shape_arg head arg :
    strings.Contains head ":" = false ->
    rule_shape (head +:+ ":" +:+ arg) head (Some arg).

(** The store after [t.Rules = append(t.Rules, f)]. *)
Definition with_rule (f : option TransformFunc) (w : World) : World :=
  {| self := {| t_Handlers := t_Handlers (self w);
                t_Lookups := t_Lookups (self w);
                t_Rules := t_Rules (self w) ++ [f] |};
     captured := captured w;
     env := env w |}.

(** [parses subs w fs w']: from the store [w], every sub-rule of [subs]
    parses; [fs] are the parsed funcs in order, each appended to [Rules]
    before the next sub-rule is parsed, and [w'] is the store at the end. *)
Inductive parses : list string -> World -> list (option TransformFunc)
                   -> World -> Prop :=
| parses_nil w : parses [] w [] w
| parses_cons s subs w f w1 fs w2 :
    ParseStringRule s w = Ret ((f, None), w1) ->
    parses subs (with_rule f w1) fs w2 ->
    parses (s :: subs) w (f :: fs) w2.
End specification.

(** ** A runtime to run the model on

    The examples below need a concrete [GoRuntime].  Its process state is the
    environment and a counter for funcs that count their calls; its case
    tables are the simple case mappings of U+0000..U+00FF (other runes, which
    the examples do not use, are left alone); its [regexp.Compile] knows the
    source [ShellVar] and rejects any other source the way Go rejects
    [(?P<key>]. *)

Module shellvar.
Local Open Scope Z_scope.

(** [\s] is [[\t\n\f\r ]]. *)
Definition is_space (c : ascii) : bool :=
  let b := byte_val c in
  (b =? 9) || (b =? 10) || (b =? 12) || (b =? 13) || (b =? 32).

Definition is_word (c : ascii) : bool :=
  let b := byte_val c in
  ((0x41 <=? b) && (b <=? 0x5A)) || ((0x61 <=? b) && (b <=? 0x7A))
  || ((0x30 <=? b) && (b <=? 0x39)) || (b =? 0x5F).

Fixpoint spaces (s : string) : nat :=
  match s with
  | String c s' => if is_space c then S (spaces s') else O
  | "" => O
  end.

(** The bytes of the longest run of [[A-Z0-9_]] under [(?i)]: the ASCII
    letters of both cases, digits, the underscore, and the two other
    runes that fold to a letter, U+017F (bytes C5 BF) and U+212A (bytes
    E2 84 AA). *)
Fixpoint keylen (s : string) : nat :=
  match s with
  | "" => O
  | String c s1 =>
    if is_word c then S (keylen s1)
    else match s1 with
      | "" => O
      | String c1 s2 =>
        if (byte_val c =? 0xC5) && (byte_val c1 =? 0xBF) then S (S (keylen s2))
        else match s2 with
          | "" => O
          | String c2 s3 =>
            if (byte_val c =? 0xE2) && (byte_val c1 =? 0x84) && (byte_val c2 =? 0xAA)
            then S (S (S (keylen s3)))
            else O
          end
      end
  end.

(** A match of [ShellVar] at the start of [s]: the offsets of the key
    and the end of the match.  The pattern is [\$], [{], [\s*], the group,
    [\s*], [}]; white space, key characters and [}] exclude one another, so
    the greedy runs are the only way to match. *)
Definition match_here (s : string) : option (nat * nat * nat) :=
  match s with
  | String "$" (String "{" r) =>
    let a := spaces r in
    let k := keylen (str_drop a r) in
    let b := spaces (str_drop (a + k) r) in
    match k, str_drop (a + k + b) r with
    | S _, String "}" _ => Some (2 + a, 2 + a + k, 2 + a + k + b + 1)%nat
    | _, _ => None
    end
  | _ => None
  end.

(** All matches, leftmost first, the search going on where the last match
    ended ([skip] bytes further); a match is never empty. *)
Fixpoint find_all (off : Z) (skip : nat) (s : string) : list (list Z) :=
  match s with
  | "" => []
  | String _ s' =>
    match skip with
    | S k => find_all (off + 1) k s'
    | O =>
      match match_here s with
      | Some (lo, hi, e) =>
        [off; off + Z.of_nat e; off + Z.of_nat lo; off + Z.of_nat hi]
          :: find_all (off + 1) (e - 1) s'
      | None => find_all (off + 1) O s'
      end
    end
  end.

(** The compiled [ShellVar]: group 1 is [key]. *)
Definition re : Regexp := {|
  re_String := ShellVar;
  re_SubexpIndex := fun name => if decide (name = "key") then 1 else -1;
  re_FindAllStringSubmatchIndex := find_all 0 O;
|}.
End shellvar.

Module example.
Local Open Scope Z_scope.

Definition ToUpper (r : Z) : Z :=
  if (0x61 <=? r) && (r <=? 0x7A) then r - 0x20
  else if (0xE0 <=? r) && (r <=? 0xFE) && negb (r =? 0xF7) then r - 0x20
  else if r =? 0xFF then 0x178
  else if r =? 0xB5 then 0x39C
  else r.

Definition ToLower (r : Z) : Z :=
  if (0x41 <=? r) && (r <=? 0x5A) then r + 0x20
  else if (0xC0 <=? r) && (r <=? 0xDE) && negb (r =? 0xD7) then r + 0x20
  else r.

Definition Compile (src : string) : Regexp + error :=
  if decide (src = ShellVar) then inl shellvar.re
  else inr (syntax_Error "missing closing )" src).

#[export] Instance runtime : GoRuntime := {|
  Env := gmap string string * nat;
  environ := fst;
  unicode_ToUpper := ToUpper;
  unicode_ToLower := ToLower;
  regexp_Compile := Compile;
|}.

(** The letter e with an acute accent, U+00E9 (bytes C3 A9), its capital
    U+00C9 (bytes C3 89), and the replacement character U+FFFD (bytes
    EF BF BD). *)
Definition e_acute : string := String "195" (String "169" "").
Definition E_acute : string := String "195" (String "137" "").
Definition U_FFFD : string := String "239" (String "191" (String "189" "")).

(** A func that fails, and one that counts its calls. *)
Definition always_fails : @TransformFunc runtime :=
  Func (fun s e => ((s, Some (errors_New "boom")), (e.1, S e.2))).

Definition counting (m : method) : @TransformFunc runtime :=
  Func (fun s e => (method_call m s, (e.1, S e.2))).

(** A fresh [Transform] (after [New()]) in a process with environment
    [environ]. *)
Definition zero (environ : gmap string string) : @World runtime :=
  {| self := {| t_Handlers := None; t_Lookups := []; t_Rules := [] |};
     captured := [];
     env := (environ, O) |}.

(** The lookups and inputs of the examples. *)
Definition map_NAME : @LookupFunc runtime :=
  LookupHandlers (Some {["NAME" := "Ada"]}).
Definition map_X : @LookupFunc runtime :=
  LookupHandlers (Some {["X" := "1"]}).

(** The store after [t.Expand(re, ff...)] with [ShellVar] on a fresh
    [Transform]: one func literal, whose cell 0 holds [ff]. *)
Definition expanded (ff : list (option (@LookupFunc runtime))) : @World runtime :=
  {| self := {| t_Handlers := None; t_Lookups := []; t_Rules := [] |};
     captured := [ff];
     env := (∅, O) |}.

(** The reference [${NAME}] in ["Hello ${NAME}!"], and the references
    [${MISSING}] and [${X}] alone. *)
Definition ref_NAME : occurrence :=
  {| o_gap := "Hello "; o_before := "${"; o_key := "NAME"; o_after := "}" |}.
Definition ref_MISSING : occurrence :=
  {| o_gap := ""; o_before := "${"; o_key := "MISSING"; o_after := "}" |}.
Definition ref_X : occurrence :=
  {| o_gap := ""; o_before := "${"; o_key := "X"; o_after := "}" |}.

(** A process where [EDITOR] is set to the empty string, and one with an
    empty environment. *)
Definition editor_empty : @Env runtime := ({["EDITOR" := ""]}, O).
Definition no_env : @Env runtime := (∅, O).

(** A [Transform] after [ResetHandlers]. *)
Definition reset : @World runtime :=
  match ResetHandlers (zero ∅) with
  | Ret (_, w) => w
  | Panic _ => zero ∅
  end.
End example.

(** ** More vocabulary *)

Section more_vocabulary.
Context `{GoRuntime}.

(** The registry that [ResetHandlers] installs. *)
Definition builtin_Handlers : Handlers :=
  Some (<["" := Some (MethodValue mNOP)]>
       (<["nop" := Some (MethodValue mNOP)]>
       (<["trim" := Some (MethodValue mTrim)]>
       (<["downcase" := Some (MethodValue mDowncase)]>
       (<["upcase" := Some (MethodValue mUpcase)]>
       (<["capitalize" := Some (MethodValue mCapitalize)]> ∅)))))).

(** The tag under which [ResetHandlers] installs a method (the method
    [NOP] is also installed under the empty tag). *)
Definition method_name (m : method) : string :=
  match m with
  | mNOP => "nop"
  | mTrim => "trim"
  | mDowncase => "downcase"
  | mUpcase => "upcase"
  | mCapitalize => "capitalize"
  end.

(** The store after [t.Rules = append(t.Rules, f)] for each [f] of [fs]. *)
Definition with_rules (fs : list (option TransformFunc)) (w : World) : World :=
  {| self := {| t_Handlers := t_Handlers (self w);
                t_Lookups := t_Lookups (self w);
                t_Rules := t_Rules (self w) ++ fs |};
     captured := captured w;
     env := env w |}.

(** The methods of [ms] applied to [s] one after the other. *)
Definition apply_methods (ms : list method) (s : string) : string :=
  foldl (fun acc m => fst (method_call m acc)) s ms.

(** A func of the package itself: nil, a method value or a func literal
    made by [Expand], not a func written by the caller. *)
Definition package_func (f : option TransformFunc) : Prop :=
  match f with
  | Some (Func _) => False
  | _ => True
  end.

(** The lookups a call of the func literal with cell [c] works with:
    its captured [ff], or [t.Lookups] when [ff] is empty (line 217). *)
Definition lookups_in_effect (c : nat) (w : World) : list (option LookupFunc) :=
  match captured_ff c w with
  | [] => t_Lookups (self w)
  | ff => ff
  end.
End more_vocabulary.

(** A string of ASCII bytes, a white-space byte, a string of white space. *)
Definition ascii_only (s : string) : Prop :=
  strings.str_forallb strings.is_ascii s = true.

Definition space_byte (c : ascii) : bool := unicode.IsSpace (byte_val c).

Definition all_space (s : string) : Prop :=
  strings.str_forallb space_byte s = true.


(** ** More example data *)

(** The pattern [a|(?P<key>b)] as [regexp] matches it: every byte [a]
    and every byte [b] is a match; group 1, named [key], takes part in
    the matches of [b] only, and has the pair [-1; -1] in a match of [a]. *)
Module optional_key.
Local Open Scope Z_scope.

Fixpoint find_all (off : Z) (s : string) : list (list Z) :=
  match s with
  | EmptyString => []
  | String ch s' =>
    if decide (ch = "a"%char) then
      [off; off + 1; -1; -1] :: find_all (off + 1) s'
    else if decide (ch = "b"%char) then
      [off; off + 1; off; off + 1] :: find_all (off + 1) s'
    else find_all (off + 1) s'
  end.

Definition re : Regexp := {|
  re_String := "a|(?P<key>b)";
  re_SubexpIndex := fun name => if decide (name = "key") then 1 else -1;
  re_FindAllStringSubmatchIndex := find_all 0;
|}.
End optional_key.

Module sample.
Import example.

(** The store after [t.Expand(re)] with [ShellVar] on a [Transform] whose
    [Lookups] are [lookups]: the new func literal has captured [cell]. *)
Definition store (lookups cell : list (option (@LookupFunc runtime)))
    : @World runtime :=
  {| self := {| t_Handlers := None; t_Lookups := lookups; t_Rules := [] |};
     captured := [cell];
     env := (∅, O) |}.

(** A process where [NAME] is set to ["Ada"]. *)
Definition name_set : @World runtime := zero {["NAME" := "Ada"]}.
End sample.
(** * Properties *)

(** ** Strings and slices *)

Section string_facts.
Implicit Types a b c s : string.

Lemma str_app_cons ch a b : String ch a +:+ b = String ch (a +:+ b).
Proof. reflexivity. Qed.

Lemma str_app_nil_l a : "" +:+ a = a.
Proof. reflexivity. Qed.

Lemma str_app_nil_r a : a +:+ "" = a.
Proof. induction a as [|ch a IH]; [done|]. by rewrite str_app_cons, IH. Qed.

Lemma str_app_assoc a b c : (a +:+ b) +:+ c = a +:+ b +:+ c.
Proof.
  induction a as [|ch a IH]; [done|]. by rewrite !str_app_cons, IH.
Qed.

Lemma str_length_app a b :
  String.length (a +:+ b) = (String.length a + String.length b)%nat.
Proof.
  induction a as [|ch a IH]; [done|]. rewrite str_app_cons. simpl. by rewrite IH.
Qed.

Lemma len_app a b : len (a +:+ b) = (len a + len b)%Z.
Proof. unfold len. rewrite str_length_app. lia. Qed.

Lemma len_nonneg a : (0 <= len a)%Z.
Proof. unfold len. lia. Qed.

Lemma str_drop_app a b : str_drop (String.length a) (a +:+ b) = b.
Proof. induction a as [|ch a IH]; [by destruct b|]. by rewrite str_app_cons. Qed.

Lemma str_take_app a b : str_take (String.length a) (a +:+ b) = a.
Proof.
  induction a as [|ch a IH]; [by destruct b|].
  rewrite str_app_cons. simpl. by rewrite IH.
Qed.

Lemma str_take_all a : str_take (String.length a) a = a.
Proof. rewrite <- (str_app_nil_r a) at 2. apply str_take_app. Qed.

(** Slicing a string at the ends of one of its parts gives that part. *)
Lemma slice_middle a b c :
  slice (a +:+ b +:+ c) (len a) (len a + len b) = Ret b.
Proof.
  unfold slice. rewrite !len_app.
  pose proof (len_nonneg a). pose proof (len_nonneg b). pose proof (len_nonneg c).
  rewrite !(proj2 (Z.leb_le _ _)) by lia. simpl.
  replace (Z.to_nat (len a + len b - len a)) with (String.length b)
    by (unfold len; lia).
  replace (Z.to_nat (len a)) with (String.length a) by (unfold len; lia).
  by rewrite str_drop_app, str_take_app.
Qed.

Lemma slice_rest a b : slice (a +:+ b) (len a) (len (a +:+ b)) = Ret b.
Proof.
  rewrite <- (str_app_nil_r b) at 1. rewrite len_app.
  rewrite slice_middle. done.
Qed.
End string_facts.

(** ** Package [strings]: separators and patterns *)

Section strings_facts.
Implicit Types s sep old new : string.
Local Open Scope Z_scope.

Lemma Index_lower s sep : -1 <= strings.Index s sep.
Proof.
  induction s as [|ch s IH]; cbn [strings.Index].
  - destruct (String.prefix sep ""); lia.
  - destruct (String.prefix sep (String ch s)); [lia|].
    destruct (strings.Index s sep <? 0) eqn:E; lia.
Qed.

(** [sep] occurs in [ch :: s] when it starts there or occurs in [s]. *)
Lemma Contains_cons ch s sep :
  strings.Contains (String ch s) sep
  = String.prefix sep (String ch s) || strings.Contains s sep.
Proof.
  unfold strings.Contains. cbn [strings.Index].
  destruct (String.prefix sep (String ch s)); [done|]. simpl.
  pose proof (Index_lower s sep).
  destruct (strings.Index s sep <? 0) eqn:E.
  - apply Z.ltb_lt in E. symmetry. apply Z.leb_gt. lia.
  - apply Z.ltb_ge in E. rewrite !(proj2 (Z.leb_le _ _)); lia.
Qed.

Lemma Contains_nil sep : sep <> "" -> strings.Contains "" sep = false.
Proof. by destruct sep. Qed.

Lemma prefix_nil s : String.prefix "" s = true.
Proof. by destruct s. Qed.

Lemma prefix_cons a s1 b s2 :
  String.prefix (String a s1) (String b s2)
  = bool_decide (a = b) && String.prefix s1 s2.
Proof.
  cbn [String.prefix]. destruct (ascii_dec a b) as [->|Hne].
  - by rewrite bool_decide_eq_true_2.
  - by rewrite bool_decide_eq_false_2.
Qed.

(** *** The separator [":"] *)

Lemma prefix_colon ch s :
  String.prefix ":" (String ch s) = bool_decide (ch = ":"%char).
Proof.
  rewrite prefix_cons, prefix_nil, andb_true_r. apply bool_decide_ext. naive_solver.
Qed.

Lemma genSplit_colon_absent cuts cur s :
  strings.Contains s ":" = false ->
  strings.genSplit ":" cuts 0 cur s = [String.rev_app cur s].
Proof.
  revert cur. induction s as [|ch s IH]; intros cur Hs; [done|].
  rewrite Contains_cons in Hs. apply orb_false_iff in Hs as [Hp Hs].
  cbn [strings.genSplit]. rewrite Hp.
  destruct cuts as [[|n]|]; [done|..]; by rewrite IH.
Qed.

Lemma genSplit_colon_first cur head arg :
  strings.Contains head ":" = false ->
  strings.genSplit ":" (Some 1%nat) 0 cur (head +:+ ":" +:+ arg)
  = [String.rev_app cur head; arg].
Proof.
  revert cur. induction head as [|ch head IH]; intros cur Hs.
  - rewrite str_app_nil_l. change (":" +:+ arg) with (String ":" arg).
    cbn [strings.genSplit]. rewrite prefix_colon, bool_decide_eq_true_2 by done.
    simpl. by destruct arg.
  - rewrite Contains_cons in Hs. apply orb_false_iff in Hs as [Hp Hs].
    rewrite str_app_cons. cbn [strings.genSplit].
    rewrite prefix_colon in Hp |- *. rewrite Hp. by rewrite IH.
Qed.

(** A rule without a colon is its own single part. *)
Lemma SplitN_colon_absent rule :
  strings.Contains rule ":" = false -> strings.SplitN rule ":" 2 = [rule].
Proof. intros Hs. unfold strings.SplitN. simpl. by rewrite genSplit_colon_absent. Qed.

(** A rule is cut at its first colon and nowhere else. *)
Lemma SplitN_colon_first head arg :
  strings.Contains head ":" = false ->
  strings.SplitN (head +:+ ":" +:+ arg) ":" 2 = [head; arg].
Proof. intros Hs. unfold strings.SplitN. simpl. by rewrite genSplit_colon_first. Qed.

(** Every rule has one of these two shapes. *)
Lemma colon_shape rule :
  strings.Contains rule ":" = false
  \/ exists head arg,
       rule = head +:+ ":" +:+ arg /\ strings.Contains head ":" = false.
Proof.
  induction rule as [|ch rule IH]; [by left|].
  rewrite Contains_cons, prefix_colon.
  destruct (decide (ch = ":"%char)) as [->|Hne].
  - right. exists "", rule. done.
  - rewrite bool_decide_eq_false_2 by done. simpl.
    destruct IH as [IH|(head & arg & -> & Hh)]; [by left|].
    right. exists (String ch head), arg. split; [done|].
    rewrite Contains_cons, prefix_colon, bool_decide_eq_false_2 by done. done.
Qed.

(** *** The pattern ["%s"] *)

Lemma prefix_verb_app p rest :
  p <> "" ->
  String.prefix "%s" p = false ->
  String.prefix "%s" (p +:+ "%s" +:+ rest) = false.
Proof.
  destruct p as [|c p]; [done|]. intros _.
  rewrite str_app_cons, !prefix_cons.
  destruct (bool_decide ("%"%char = c)); [simpl|done].
  destruct p as [|c' p]; [done|].
  by rewrite str_app_cons, !prefix_cons, !prefix_nil.
Qed.

Lemma replace_verb_free new p :
  strings.Contains p "%s" = false -> strings.replace_from "%s" new 0 p = p.
Proof.
  induction p as [|ch p IH]; intros Hp; [done|].
  rewrite Contains_cons in Hp. apply orb_false_iff in Hp as [Hpre Hp].
  cbn [strings.replace_from]. rewrite Hpre. by rewrite IH.
Qed.

Lemma replace_verb_app new p rest :
  strings.Contains p "%s" = false ->
  strings.replace_from "%s" new 0 (p +:+ "%s" +:+ rest)
  = p +:+ new +:+ strings.replace_from "%s" new 0 rest.
Proof.
  induction p as [|ch p IH]; intros Hp.
  - rewrite !str_app_nil_l. by destruct rest.
  - pose proof Hp as Hp'.
    rewrite Contains_cons in Hp. apply orb_false_iff in Hp as [Hpre Hp].
    rewrite (str_app_cons ch p). cbn [strings.replace_from].
    rewrite <- (str_app_cons ch p), prefix_verb_app by done.
    by rewrite (str_app_cons ch p), IH.
Qed.

Lemma Contains_verb_app p rest :
  strings.Contains (p +:+ "%s" +:+ rest) "%s" = true.
Proof.
  induction p as [|ch p IH].
  - rewrite str_app_nil_l. change ("%s" +:+ rest) with (String "%" (String "s" rest)).
    by rewrite Contains_cons, !prefix_cons, prefix_nil, !bool_decide_eq_true_2.
  - rewrite str_app_cons, Contains_cons, IH. apply orb_true_r.
Qed.

(** Replacing ["%s"] in pieces joined by ["%s"] joins them by [new]. *)
Lemma replace_verb_Join new pieces :
  Forall (fun p => strings.Contains p "%s" = false) pieces ->
  strings.replace_from "%s" new 0 (strings.Join pieces "%s")
  = strings.Join pieces new.
Proof.
  induction 1 as [|p [|q pieces] Hp Hq IH]; [done|..].
  - simpl. by apply replace_verb_free.
  - change (strings.Join (p :: q :: pieces) "%s")
      with (p +:+ "%s" +:+ strings.Join (q :: pieces) "%s").
    rewrite replace_verb_app, IH by done. done.
Qed.
End strings_facts.

(** ** Package [transform] *)

Section lookups.
Context `{GoRuntime}.

(** Any template is pieces without ["%s"] joined by ["%s"]. *)
Lemma verb_pieces val :
  exists pieces,
    Forall (fun p => strings.Contains p "%s" = false) pieces
    /\ pieces <> [] /\ val = strings.Join pieces "%s".
Proof.
  induction val as [|ch val (pieces & Hfree & Hne & ->)].
  { exists [""]. by repeat constructor. }
  destruct pieces as [|p pieces]; [done|].
  apply Forall_cons in Hfree as [Hp Hfree].
  destruct (String.prefix "%s" (String ch p)) eqn:Hpre.
  - destruct p as [|ch' p]; rewrite !prefix_cons in Hpre;
      [by rewrite andb_false_r in Hpre|].
    apply andb_true_iff in Hpre as [<-%bool_decide_eq_true Hpre].
    apply andb_true_iff in Hpre as [<-%bool_decide_eq_true _].
    rewrite Contains_cons in Hp. apply orb_false_iff in Hp as [_ Hp].
    exists ("" :: p :: pieces). split; [by repeat constructor|]. split; [done|].
    by destruct pieces.
  - exists (String ch p :: pieces). split.
    + constructor; [|done]. by rewrite Contains_cons, Hpre, Hp.
    + split; [done|]. by destruct pieces.
Qed.

(** C10: the lookup made by [LookupStatic(val)] reports found for every
    name; its value is [val] with every occurrence of ["%s"] replaced by
    the name, that is, the pieces of [val] between the occurrences joined
    by the name, and [val] itself when ["%s"] does not occur in it. *)
Theorem LookupStatic_template val e name :
  snd (LookupStatic val e name) = true
  /\ (strings.Contains val "%s" = false -> LookupStatic val e name = (val, true))
  /\ (forall pieces,
        Forall (fun p => strings.Contains p "%s" = false) pieces ->
        val = strings.Join pieces "%s" ->
        LookupStatic val e name = (strings.Join pieces name, true))
  /\ (exists pieces,
        Forall (fun p => strings.Contains p "%s" = false) pieces
        /\ val = strings.Join pieces "%s").
Proof.
  unfold LookupStatic. split; [by destruct (strings.Contains val "%s")|].
  split; [by intros ->|]. split.
  - intros pieces Hfree ->.
    destruct (strings.Contains _ "%s") eqn:Hc.
    + unfold strings.ReplaceAll. case_decide as Hn; [by subst|].
      by rewrite replace_verb_Join.
    + destruct Hfree as [|p [|q pieces] Hp Hfree]; [done..|].
      change (strings.Join (p :: q :: pieces) "%s")
        with (p +:+ "%s" +:+ strings.Join (q :: pieces) "%s") in Hc.
      by rewrite Contains_verb_app in Hc.
  - destruct (verb_pieces val) as (pieces & ? & _ & ?). by exists pieces.
Qed.

(** C9: for a variable set to the empty string the lookup made by
    [LookupEnv] reports not found, exactly as for a variable that is not
    set, and the resolution goes on with the lookups after it. *)
Theorem LookupEnv_empty_value e name :
  environ e !! name = Some "" ->
  LookupEnv e name = ("", false)
  /\ (forall e', environ e' !! name = None -> LookupEnv e' name = LookupEnv e name)
  /\ (forall rest, resolve (Some LookupEnv :: rest) name e = resolve rest name e).
Proof.
  intros He.
  assert (LookupEnv e name = ("", false)) as Hl.
  { unfold LookupEnv, os_Getenv. by rewrite He. }
  split; [done|]. split.
  - intros e' He'. rewrite Hl. unfold LookupEnv, os_Getenv. by rewrite He'.
  - intros rest. cbn [resolve]. by rewrite Hl.
Qed.
End lookups.

Section expansion.
Context `{GoRuntime}.
Implicit Types (ffl : list LookupFunc) (e : Env) (os : list occurrence).

Lemma first_found_cons f ffl e key :
  first_found (f :: ffl) e key
  = if snd (f e key) then Some (fst (f e key)) else first_found ffl e key.
Proof.
  unfold first_found. rewrite fmap_cons, filter_cons.
  by destruct (f e key) as [v []].
Qed.

(** The loop over the lookups computes the first found value. *)
Lemma resolve_first_found ffl e key :
  resolve (Some <$> ffl) key e = Ret (value ffl e key).
Proof.
  unfold value. induction ffl as [|f ffl IH]; [done|].
  rewrite fmap_cons, first_found_cons. cbn [resolve].
  by destruct (f e key) as [v []].
Qed.

Lemma unresolved_value ffl e key : unresolved ffl e key <-> value ffl e key = "".
Proof.
  unfold unresolved, value. destruct (first_found ffl e key) as [v|]; simpl.
  - split; [intros [?|?]; congruence|intros ->; by right].
  - split; [done|by left].
Qed.

(** The lookups are asked in order, up to the first that finds the key:
    those after it are not called (they may even be nil). *)
Lemma resolve_stops_at_first_found ffl f v post e key :
  Forall (fun g => snd (g e key) = false) ffl ->
  f e key = (v, true) ->
  resolve ((Some <$> ffl) ++ Some f :: post) key e = Ret v.
Proof.
  intros Hpre Hf. induction Hpre as [|g ffl Hg _ IH].
  - cbn [resolve fmap list_fmap app]. by rewrite Hf.
  - rewrite fmap_cons. cbn [resolve app].
    destruct (g e key) as [u ok]. simpl in Hg. by rewrite Hg.
Qed.

Lemma located_nil idx off ms : located idx off [] ms <-> ms = [].
Proof. by destruct ms. Qed.

Lemma located_length idx off os ms :
  located idx off os ms -> length ms = length os.
Proof.
  revert off ms. induction os as [|o os IH]; intros off [|m ms]; try done.
  intros (_ & _ & _ & _ & Hl). simpl. f_equal. eauto.
Qed.

(** One turn of the loop on a located match whose key has value [v]. *)
Lemma expand_loop_step idx ff e done o os rest m ms s2 v :
  located idx (len done) (o :: os) (m :: ms) ->
  resolve ff (o_key o) e = Ret v ->
  let s := done +:+ text (o :: os) rest in
  let done' :=
    done +:+ o_gap o +:+ o_before o +:+ o_key o +:+ o_after o in
  s = done' +:+ text os rest
  /\ located idx (len done') os ms
  /\ expand_loop idx ff e s (m :: ms) s2 (len done)
     = if decide (v = "") then
         Ret ("", Some (errors_New ("could not resolve variable: " +:+ o_key o)))
       else expand_loop idx ff e s ms (s2 +:+ o_gap o +:+ v) (len done').
Proof.
  intros (Hm0 & Hm1 & Hlo & Hhi & Hloc) Hres s done'.
  assert (s = done' +:+ text os rest) as Hs.
  { unfold s, done'. cbn [text]. by rewrite !str_app_assoc. }
  assert (len done' = len done + len (o_gap o) + len (o_before o)
                      + len (o_key o) + len (o_after o))%Z as Hlen.
  { unfold done'. rewrite !len_app. lia. }
  split; [done|]. split.
  { rewrite Hlen. by replace (_ + _ + _ + _ + _)%Z
      with (len done + len (o_gap o) + len (o_before o) + len (o_key o)
            + len (o_after o))%Z by lia. }
  cbn [expand_loop]. rewrite Hlo, Hhi. cbn [obind].
  assert (slice s (len done + len (o_gap o) + len (o_before o))
            (len done + len (o_gap o) + len (o_before o) + len (o_key o))
          = Ret (o_key o)) as ->.
  { unfold s. cbn [text].
    replace (done +:+ o_gap o +:+ (o_before o +:+ o_key o +:+ o_after o)
               +:+ text os rest)
      with ((done +:+ o_gap o +:+ o_before o) +:+ o_key o
              +:+ (o_after o +:+ text os rest))
      by (by rewrite !str_app_assoc).
    rewrite <- slice_middle at 1. f_equal; rewrite !len_app; lia. }
  cbn [obind]. rewrite Hres. cbn [obind].
  case_decide; [done|].
  rewrite Hm0. cbn [obind].
  assert (slice s (len done) (len done + len (o_gap o)) = Ret (o_gap o)) as ->.
  { unfold s. cbn [text]. apply slice_middle. }
  cbn [obind]. rewrite Hm1. cbn [obind].
  by rewrite Hlen.
Qed.

(** When every key resolves, the loop replaces every matched span. *)
Lemma expand_loop_resolved idx ffl e done os rest ms s2 :
  located idx (len done) os ms ->
  Forall (fun o => ~ unresolved ffl e (o_key o)) os ->
  expand_loop idx (Some <$> ffl) e (done +:+ text os rest) ms s2 (len done)
  = Ret (s2 +:+ replaced (value ffl e) os rest, None).
Proof.
  revert done ms s2. induction os as [|o os IH]; intros done ms s2 Hloc Hall.
  - apply located_nil in Hloc as ->. cbn [expand_loop text replaced].
    by rewrite slice_rest.
  - destruct ms as [|m ms]; [done|].
    apply Forall_cons in Hall as [Ho Hall].
    destruct (expand_loop_step idx (Some <$> ffl) e done o os rest m ms s2
                (value ffl e (o_key o)) Hloc (resolve_first_found _ _ _))
      as (Hs & Hloc' & ->).
    rewrite unresolved_value in Ho. rewrite decide_False by done.
    rewrite Hs, IH by done. cbn [replaced]. by rewrite !str_app_assoc.
Qed.

(** The first key that does not resolve makes the loop return its error. *)
Lemma expand_loop_unresolved idx ffl e done pre o post rest ms s2 :
  located idx (len done) (pre ++ o :: post) ms ->
  Forall (fun o => ~ unresolved ffl e (o_key o)) pre ->
  unresolved ffl e (o_key o) ->
  expand_loop idx (Some <$> ffl) e (done +:+ text (pre ++ o :: post) rest)
    ms s2 (len done)
  = Ret ("", Some (errors_New ("could not resolve variable: " +:+ o_key o))).
Proof.
  revert done ms s2. induction pre as [|p pre IH]; intros done ms s2 Hloc Hall Ho.
  - destruct ms as [|m ms]; [done|]. cbn [app] in *.
    destruct (expand_loop_step idx (Some <$> ffl) e done o post rest m ms s2
                (value ffl e (o_key o)) Hloc (resolve_first_found _ _ _))
      as (_ & _ & ->).
    rewrite unresolved_value in Ho. by rewrite decide_True.
  - destruct ms as [|m ms]; [done|]. cbn [app] in *.
    apply Forall_cons in Hall as [Hp Hall].
    destruct (expand_loop_step idx (Some <$> ffl) e done p (pre ++ o :: post)
                rest m ms s2
                (value ffl e (o_key p)) Hloc (resolve_first_found _ _ _))
      as (Hs & Hloc' & ->).
    rewrite unresolved_value in Hp. rewrite decide_False by done.
    rewrite Hs. by apply IH.
Qed.

(** Among matches of which one does not resolve there is a first such. *)
Lemma first_unresolved ffl e os :
  Exists (fun o => unresolved ffl e (o_key o)) os ->
  exists pre o post,
    os = pre ++ o :: post
    /\ Forall (fun o => ~ unresolved ffl e (o_key o)) pre
    /\ unresolved ffl e (o_key o).
Proof.
  induction os as [|p os IH]; intros Hex; [by apply Exists_nil in Hex|].
  destruct (decide (value ffl e (o_key p) = "")) as [Hp|Hp].
  - exists [], p, os. by rewrite unresolved_value.
  - apply Exists_cons in Hex as [Hex|Hex]; [by rewrite unresolved_value in Hex|].
    destruct (IH Hex) as (pre & o & post & -> & Hpre & Ho).
    exists (p :: pre), o, post. split; [done|]. split; [|done].
    constructor; [by rewrite unresolved_value|done].
Qed.

(** An error of the loop comes with the empty string. *)
Lemma expand_loop_error idx ff e s ms s2 pos r err :
  expand_loop idx ff e s ms s2 pos = Ret (r, Some err) -> r = "".
Proof.
  revert s2 pos. induction ms as [|m ms IH]; intros s2 pos; cbn [expand_loop].
  - destruct (slice s pos (len s)); by inversion 1.
  - destruct (index m (idx * 2)); [cbn [obind]|done].
    destruct (index m (idx * 2 + 1)); [cbn [obind]|done].
    destruct (slice s _ _); [cbn [obind]|done].
    destruct (resolve ff _ e); [cbn [obind]|done].
    case_decide; [by inversion 1|].
    destruct (index m 0); [cbn [obind]|done].
    destruct (slice s pos _); [cbn [obind]|done].
    destruct (index m 1); [cbn [obind]|done].
    apply IH.
Qed.
End expansion.

Section expand_func.
Context `{GoRuntime}.
Implicit Types (ffl : list LookupFunc) (os : list occurrence) (w : World).

Lemma env_assign_lookups c w : env (assign_lookups c w) = env w.
Proof. unfold assign_lookups. by case_decide. Qed.

Lemma self_assign_lookups c w : self (assign_lookups c w) = self w.
Proof. unfold assign_lookups. by case_decide. Qed.

(** The lookups a call works with: the captured ones when there are
    any, else the [Lookups] of the [Transform] at the time of the call. *)
Lemma captured_ff_assign c w :
  (c < length (captured w))%nat ->
  captured_ff c (assign_lookups c w)
  = if decide (captured_ff c w = []) then t_Lookups (self w) else captured_ff c w.
Proof.
  intros Hc. unfold assign_lookups.
  destruct (captured_ff c w) as [|f ff] eqn:Hff; simpl.
  - unfold captured_ff. simpl. by rewrite list_lookup_insert_eq.
  - done.
Qed.

(** What [Expand] returns for a pattern with a group [key]: a func
    literal whose captured [ff] is a new cell holding the lookups given. *)
Lemma Expand_returns re ff w0 f w1 :
  Expand re ff w0 = Ret ((Some f, None), w1) ->
  f = ExpandFunc re (re_SubexpIndex re "key") (length (captured w0))
  /\ re_SubexpIndex re "key" <> (-1)%Z
  /\ captured_ff (length (captured w0)) w1 = ff
  /\ self w1 = self w0 /\ env w1 = env w0.
Proof.
  unfold Expand. case_decide as Hidx; [done|]. intros [= <- <-].
  repeat split; try done. unfold captured_ff. simpl.
  by rewrite lookup_app_r, Nat.sub_diag.
Qed.

(** A call on an input with matches runs the loop on them. *)
Lemma call_ExpandFunc_matches re idx c w os rest :
  os <> [] ->
  located idx 0 os (re_FindAllStringSubmatchIndex re (text os rest)) ->
  call (ExpandFunc re idx c) (text os rest) w
  = match expand_loop idx (captured_ff c (assign_lookups c w)) (env w)
            ("" +:+ text os rest)
            (re_FindAllStringSubmatchIndex re (text os rest)) "" (len "")
    with
    | Ret r => Ret (r, assign_lookups c w)
    | Panic msg => Panic msg
    end.
Proof.
  intros Hos Hloc. cbn [call]. unfold ExpandFunc_call.
  apply located_length in Hloc. rewrite decide_False.
  - by rewrite env_assign_lookups.
  - rewrite Hloc. by destruct os.
Qed.

Lemma call_ExpandFunc_resolved re idx c w os rest ffl :
  os <> [] ->
  located idx 0 os (re_FindAllStringSubmatchIndex re (text os rest)) ->
  captured_ff c (assign_lookups c w) = Some <$> ffl ->
  Forall (fun o => ~ unresolved ffl (env w) (o_key o)) os ->
  call (ExpandFunc re idx c) (text os rest) w
  = Ret ((replaced (value ffl (env w)) os rest, None), assign_lookups c w).
Proof.
  intros Hos Hloc Hff Hall.
  rewrite call_ExpandFunc_matches, Hff by done.
  by rewrite expand_loop_resolved.
Qed.

Lemma call_ExpandFunc_unresolved re idx c w pre o post rest ffl :
  located idx 0 (pre ++ o :: post)
    (re_FindAllStringSubmatchIndex re (text (pre ++ o :: post) rest)) ->
  captured_ff c (assign_lookups c w) = Some <$> ffl ->
  Forall (fun o => ~ unresolved ffl (env w) (o_key o)) pre ->
  unresolved ffl (env w) (o_key o) ->
  call (ExpandFunc re idx c) (text (pre ++ o :: post) rest) w
  = Ret (("", Some (errors_New ("could not resolve variable: " +:+ o_key o))),
         assign_lookups c w).
Proof.
  intros Hloc Hff Hall Ho.
  rewrite call_ExpandFunc_matches, Hff by (done || by destruct pre).
  by rewrite (expand_loop_unresolved idx ffl (env w) "").
Qed.

(** Once a call has found [ff] empty and taken [t.Lookups], the func
    literal keeps these lookups: a later change of [t.Lookups] is not seen. *)
Lemma ExpandFunc_keeps_lookups c w ff lookups' :
  (c < length (captured w))%nat ->
  captured_ff c w = [] ->
  t_Lookups (self w) = ff ->
  ff <> [] ->
  let w' := assign_lookups c w in
  let w'' := {| self := {| t_Handlers := t_Handlers (self w');
                           t_Lookups := lookups';
                           t_Rules := t_Rules (self w') |};
                captured := captured w';
                env := env w' |} in
  captured_ff c (assign_lookups c w'') = ff.
Proof.
  intros Hc Hnil Hff Hne w' w''.
  assert (captured_ff c w' = ff) as Hw'.
  { unfold w'. rewrite captured_ff_assign, Hnil by done. by rewrite decide_True. }
  unfold assign_lookups at 1.
  change (captured_ff c w'') with (captured_ff c w'). rewrite Hw'.
  rewrite decide_False by (by destruct ff).
  change (captured_ff c w'') with (captured_ff c w'). done.
Qed.

(** Outside of what [located] asks: when group [key] took no part in a
    match, its index pair is [-1, -1] and the slice expression panics. *)
Lemma ExpandFunc_panics_without_key re idx c w s m ms :
  re_FindAllStringSubmatchIndex re s = m :: ms ->
  index m (idx * 2) = Ret (-1)%Z ->
  index m (idx * 2 + 1) = Ret (-1)%Z ->
  call (ExpandFunc re idx c) s w = Panic "slice bounds out of range".
Proof.
  intros Hm Hlo Hhi. cbn [call]. unfold ExpandFunc_call. rewrite Hm.
  rewrite decide_False by done. cbn [expand_loop]. by rewrite Hlo, Hhi.
Qed.

(** C1, where the code departs from it: the func returned by [Expand]
    is to fail with "could not resolve variable: <key>" or to return the
    text with every match replaced.  When group [key] took no part in the
    first match of the input (the pattern [a|(?P<key>b)] on ["a"]), it
    does neither: the index pair of the group is [-1; -1], the slice
    expression of line 225 panics before any lookup is asked, and the
    call returns no string and no error. *)
Theorem Expand_func_key_outside_match re ff w0 f w1 s m ms w :
  Expand re ff w0 = Ret ((Some f, None), w1) ->
  let idx := re_SubexpIndex re "key" in
  re_FindAllStringSubmatchIndex re s = m :: ms ->
  index m (idx * 2) = Ret (-1)%Z ->
  index m (idx * 2 + 1) = Ret (-1)%Z ->
  call f s w = Panic "slice bounds out of range"
  /\ forall r w', call f s w <> Ret (r, w').
Proof.
  intros (-> & _)%Expand_returns idx Hm Hlo Hhi.
  rewrite (ExpandFunc_panics_without_key re idx _ w s m ms) by done.
  by split.
Qed.

(** C2, as the code has it: the lookups are asked in order and the first
    that reports found ends the resolution, whatever its value.  The
    lookup of [LookupStatic("")] reports found for every key, with the
    empty value: before a map that has ["X"], it makes the expansion of a
    reference to [X] fail.  After a lookup that never reports found, the
    map is reached and the reference is replaced by ["1"]. *)
Theorem lookup_order_first_found re idx c w o rest :
  located idx 0 [o] (re_FindAllStringSubmatchIndex re (text [o] rest)) ->
  o_key o = "X" ->
  let map_X : LookupFunc := LookupHandlers (Some {["X" := "1"]}) in
  (forall ffl f v post e key,
      Forall (fun g => snd (g e key) = false) ffl ->
      f e key = (v, true) ->
      resolve ((Some <$> ffl) ++ Some f :: post) key e = Ret v)
  /\ (forall e key, LookupStatic "" e key = ("", true))
  /\ (captured_ff c (assign_lookups c w) = [Some (LookupStatic ""); Some map_X] ->
      call (ExpandFunc re idx c) (text [o] rest) w
      = Ret (("", Some (errors_New "could not resolve variable: X")),
             assign_lookups c w))
  /\ (forall never : LookupFunc,
        (forall e key, snd (never e key) = false) ->
        captured_ff c (assign_lookups c w) = [Some never; Some map_X] ->
        call (ExpandFunc re idx c) (text [o] rest) w
        = Ret ((o_gap o +:+ "1" +:+ rest, None), assign_lookups c w)).
Proof.
  intros Hloc Hkey map_X. split; [apply resolve_stops_at_first_found|].
  split; [done|]. split.
  - intros Hff.
    pose proof (call_ExpandFunc_unresolved re idx c w [] o [] rest
                  [LookupStatic ""; map_X]) as Hcall.
    rewrite Hkey in Hcall. apply Hcall; [done..|].
    right. by rewrite first_found_cons.
  - intros never Hnever Hff.
    assert (value [never; map_X] (env w) (o_key o) = "1") as Hval.
    { unfold value. by rewrite !first_found_cons, Hnever, Hkey. }
    pose proof (call_ExpandFunc_resolved re idx c w [o] rest [never; map_X])
      as Hcall.
    cbn [replaced] in Hcall. rewrite Hval in Hcall. apply Hcall; [done..|].
    constructor; [|done]. by rewrite unresolved_value, Hval.
Qed.
End expand_func.

Section registry.
Context `{GoRuntime}.

Lemma ToLower_trim : strings.ToLower unicode_ToLower "trim" = "trim".
Proof. reflexivity. Qed.

(** Registering nil under a tag removes the tag. *)
Lemma Handler_nil tag w :
  tag <> "" ->
  Handler tag None w
  = Ret (tt, {| self := {| t_Handlers :=
                             Some (delete (strings.ToLower unicode_ToLower tag)
                                          (default ∅ (t_Handlers (self w))));
                           t_Lookups := t_Lookups (self w);
                           t_Rules := t_Rules (self w) |};
                captured := captured w;
                env := env w |}).
Proof. intros Htag. unfold Handler, bind, get_self. by rewrite decide_True. Qed.

(** C4: [ResetHandlers] installs the built-in handlers under the tags
    [""], ["nop"], ["trim"], ["downcase"], ["upcase"], ["capitalize"], the
    five built-in transformations, and nothing else, whatever was
    registered before; the other fields are left alone.  After the
    handler of ["trim"] was removed by registering nil, a reset makes the
    tag name the built-in [Trim] again. *)
Theorem ResetHandlers_builtins w :
  exists m,
    ResetHandlers w
    = Ret (tt, {| self := {| t_Handlers := Some m;
                             t_Lookups := t_Lookups (self w);
                             t_Rules := t_Rules (self w) |};
                  captured := captured w;
                  env := env w |})
    /\ (forall tag, default None (m !! tag) = MethodValue <$> builtin tag)
    /\ dom m = {[ ""; "nop"; "trim"; "downcase"; "upcase"; "capitalize" ]}
    /\ (forall b, exists tag, builtin tag = Some b)
    /\ (exists w1 w2,
          Handler "trim" None w = Ret (tt, w1)
          /\ handlers_get (t_Handlers (self w1)) "trim" = None
          /\ ResetHandlers w1 = Ret (tt, w2)
          /\ handlers_get (t_Handlers (self w2)) "trim" = Some (MethodValue mTrim)).
Proof.
  eexists. split; [reflexivity|]. split; [|split; [|split]].
  - intros tag. unfold builtin.
    repeat case_decide; subst; by simplify_map_eq.
  - rewrite !dom_insert_L, dom_empty_L. set_solver.
  - intros []; [by exists "nop"|by exists "trim"|by exists "downcase"
                |by exists "upcase"|by exists "capitalize"].
  - do 2 eexists. split; [by apply Handler_nil|]. split.
    + cbn. rewrite ToLower_trim. by rewrite lookup_delete_eq.
    + split; [reflexivity|]. cbn. by simplify_map_eq.
Qed.
End registry.

Section builtins.
Context `{GoRuntime}.
Local Open Scope Z_scope.

(** A byte that is not ASCII is, on its own, an invalid encoding. *)
Lemma range_high_byte c :
  0x80 <= byte_val c -> utf8.range (String c "") = [utf8.RuneError].
Proof.
  intros Hc. unfold utf8.range. cbn [utf8.range_from utf8.DecodeRuneInString].
  rewrite (proj2 (Z.ltb_ge _ _)) by done.
  by destruct (utf8.first (byte_val c)) as [[[??]?]|].
Qed.

Lemma Map_high_byte mapping c :
  0x80 <= byte_val c ->
  mapping utf8.RuneError = utf8.RuneError ->
  strings.Map mapping (String c "") = utf8.EncodeRune utf8.RuneError.
Proof.
  intros Hc Hm. unfold strings.Map. rewrite range_high_byte by done.
  cbn [foldr]. rewrite Hm. simpl. by rewrite str_app_nil_r.
Qed.

Lemma ToUpper_high_byte c :
  0x80 <= byte_val c ->
  unicode_ToUpper utf8.RuneError = utf8.RuneError ->
  strings.ToUpper unicode_ToUpper (String c "") = utf8.EncodeRune utf8.RuneError.
Proof.
  intros Hc Hm. unfold strings.ToUpper. cbn [strings.str_forallb].
  unfold strings.is_ascii. rewrite (proj2 (Z.ltb_ge _ _)) by done.
  by apply Map_high_byte.
Qed.

Lemma ToLower_high_byte c :
  0x80 <= byte_val c ->
  unicode_ToLower utf8.RuneError = utf8.RuneError ->
  strings.ToLower unicode_ToLower (String c "") = utf8.EncodeRune utf8.RuneError.
Proof.
  intros Hc Hm. unfold strings.ToLower. cbn [strings.str_forallb].
  unfold strings.is_ascii. rewrite (proj2 (Z.ltb_ge _ _)) by done.
  by apply Map_high_byte.
Qed.

Lemma ToUpper_ascii_byte c :
  byte_val c < 0x80 ->
  strings.ToUpper unicode_ToUpper (String c "")
  = String (strings.upper_byte c) "".
Proof.
  intros Hc. unfold strings.ToUpper. cbn [strings.str_forallb].
  unfold strings.is_ascii. by rewrite (proj2 (Z.ltb_lt _ _)).
Qed.

(** C3, as the code has it: [Capitalize] gives [""] for [""], never
    fails, and upper-cases the first BYTE of its input and lower-cases
    the rest: ["hELLO"] becomes ["Hello"], but the bytes of a first
    character outside ASCII are torn apart, and each half comes out as
    the replacement character U+FFFD.  For the letter U+00E9 the result
    is two replacement characters, not U+00C9. *)
Theorem Capitalize_first_byte :
  Capitalize "" = ("", None)
  /\ (forall s, snd (Capitalize s) = None)
  /\ Capitalize "hELLO" = ("Hello", None)
  /\ (forall c s,
        byte_val c < 0x80 ->
        Capitalize (String c s)
        = (String (strings.upper_byte c) (strings.ToLower unicode_ToLower s), None))
  /\ (unicode_ToUpper utf8.RuneError = utf8.RuneError ->
      unicode_ToLower utf8.RuneError = utf8.RuneError ->
      (forall c s,
          0x80 <= byte_val c ->
          Capitalize (String c s)
          = (example.U_FFFD +:+ strings.ToLower unicode_ToLower s, None))
      /\ Capitalize example.e_acute = (example.U_FFFD +:+ example.U_FFFD, None)
      /\ fst (Capitalize example.e_acute) <> example.E_acute).
Proof.
  split; [done|]. split; [|split; [done|split]].
  - intros s. unfold Capitalize. by case_decide.
  - intros c s Hc. unfold Capitalize. rewrite decide_False by done.
    cbn [str_take str_drop]. by rewrite ToUpper_ascii_byte.
  - intros Hup Hlow.
    assert (forall c s, 0x80 <= byte_val c ->
              Capitalize (String c s)
              = (example.U_FFFD +:+ strings.ToLower unicode_ToLower s, None))
      as Hhigh.
    { intros c s Hc. unfold Capitalize. rewrite decide_False by done.
      cbn [str_take str_drop]. by rewrite ToUpper_high_byte. }
    split; [done|].
    assert (Capitalize example.e_acute = (example.U_FFFD +:+ example.U_FFFD, None))
      as He.
    { unfold example.e_acute. rewrite Hhigh by done.
      by rewrite ToLower_high_byte. }
    split; [done|]. by rewrite He.
Qed.
End builtins.

Section pipeline.
Context `{GoRuntime}.

Lemma Transform_Transform_loop s ff w :
  Transform_Transform s ff w = Transform_loop (functions_used ff w) s w.
Proof. by destruct ff. Qed.

(** Funcs that all succeed hand their result over to the funcs after. *)
Lemma Transform_loop_steps ff s w s' w' post :
  steps ff s w s' w' ->
  Transform_loop (ff ++ post) s w = Transform_loop post s' w'.
Proof.
  induction 1 as [| |f ff s w s1 w1 s' w' Hcall _ IH]; [done..|].
  cbn [app Transform_loop]. unfold bind at 1. by rewrite Hcall.
Qed.

(** C5: [Transform] goes through the funcs given (the default [Rules]
    when none is given) in order, skipping nil ones, and returns the last
    result; the first func that returns an error ends the call, with the
    error wrapped as "rule" (its message is "rule: " and the message of the
    cause) and the store as this func left it, whatever funcs come after. *)
Theorem Transform_in_order s ff w :
  (forall s' w',
      steps (functions_used ff w) s w s' w' ->
      Transform_Transform s ff w = Ret ((s', None), w'))
  /\ (forall pre f post s1 w1 s2 err w2,
        functions_used ff w = pre ++ Some f :: post ->
        steps pre s w s1 w1 ->
        call f s1 w1 = Ret ((s2, Some err), w2) ->
        Transform_Transform s ff w
        = Ret (("", Some (errors_Wrap err "rule")), w2)
        /\ Error (errors_Wrap err "rule") = "rule: " +:+ Error err).
Proof.
  rewrite Transform_Transform_loop. split.
  - intros s' w' Hsteps.
    rewrite <- (app_nil_r (functions_used ff w)).
    by rewrite (Transform_loop_steps _ _ _ _ _ _ Hsteps).
  - intros pre f post s1 w1 s2 err w2 -> Hsteps Hcall. split; [|done].
    rewrite (Transform_loop_steps _ _ _ _ _ _ Hsteps).
    cbn [Transform_loop]. unfold bind. by rewrite Hcall.
Qed.

Lemma Transform_loop_error ff s w r err w' :
  Transform_loop ff s w = Ret ((r, Some err), w') -> r = "".
Proof.
  revert s w. induction ff as [|[f|] ff IH]; intros s w; cbn [Transform_loop].
  - by inversion 1.
  - unfold bind. destruct (call f s w) as [[[s1 [e|]] w1]|]; simpl.
    + by inversion 1.
    + apply IH.
    + done.
  - apply IH.
Qed.

(** C8: an error of [Transform], or of a func made by [Expand], comes
    with the empty string. *)
Theorem error_with_empty_string :
  (forall s ff w r err w',
      Transform_Transform s ff w = Ret ((r, Some err), w') -> r = "")
  /\ (forall re lookups w0 f w1,
        Expand re lookups w0 = Ret ((Some f, None), w1) ->
        forall s w r err w',
          call f s w = Ret ((r, Some err), w') -> r = "").
Proof.
  split.
  - intros s ff w r err w'. rewrite Transform_Transform_loop.
    apply Transform_loop_error.
  - intros re lookups w0 f w1 (-> & _)%Expand_returns s w r err w'.
    cbn [call]. unfold ExpandFunc_call. case_decide; [by inversion 1|].
    destruct (expand_loop _ _ _ _ _ _ _) as [[r' e']|] eqn:Hloop; [|done].
    intros [= -> -> _]. by apply expand_loop_error in Hloop.
Qed.
End pipeline.

Section rule_parser.
Context `{GoRuntime}.

Lemma rule_shape_total rule : exists head arg, rule_shape rule head arg.
Proof.
  destruct (colon_shape rule) as [Hc|(head & arg & -> & Hh)].
  - exists rule, None. by constructor.
  - exists head, (Some arg). by constructor.
Qed.

(** [parts] for a rule of either shape: [parts[0]] is never out of range. *)
Lemma SplitN_rule_shape rule head arg :
  rule_shape rule head arg ->
  strings.SplitN rule ":" 2 = head :: option_list arg.
Proof.
  intros [rule' Hc|head' arg' Hc].
  - by apply SplitN_colon_absent.
  - by apply SplitN_colon_first.
Qed.

Lemma handlers_get_default h tag :
  handlers_get (Some (default ∅ h)) tag = handlers_get h tag.
Proof. destruct h; [done|]. simpl. by rewrite lookup_empty. Qed.

(** The parser after the cut at the first colon. *)
Lemma ParseStringRule_shape rule head arg w :
  rule_shape rule head arg ->
  let tag := strings.ToLower unicode_ToLower (strings.TrimSpace head) in
  ParseStringRule rule w
  = match handlers_get (t_Handlers (self w)) tag with
    | Some f => Ret ((Some f, None), w)
    | None =>
      if decide (tag = "expand") then
        match arg with
        | None => Ret ((None, Some (errors_New "expand: missing regex")), w)
        | Some a =>
          match regexp_Compile a with
          | inr err => Ret ((None, Some (errors_Wrap err ("regexp: " +:+ a))), w)
          | inl re =>
            match Expand re [] w with
            | Ret ((f, None), w') => Ret ((f, None), w')
            | Ret ((_, Some err), w') => Ret ((None, Some err), w')
            | Panic msg => Panic msg
            end
          end
        end
      else Ret ((None, Some (errors_New ("unknown transform: " +:+ tag))), w)
    end.
Proof.
  intros Hshape tag. unfold ParseStringRule.
  rewrite (SplitN_rule_shape _ _ _ Hshape).
  unfold bind, lift, get_self. cbn [part lookup list_lookup].
  rewrite handlers_get_default. fold tag.
  destruct (handlers_get (t_Handlers (self w)) tag) as [f|]; [done|].
  case_decide; [|done].
  destruct arg as [a|]; cbn [option_list length app]; [|done].
  rewrite decide_False by done.
  change (part (head :: option_list (Some a)) 1) with (Ret a : Outcome string).
  cbn beta iota.
  destruct (regexp_Compile a) as [re|err]; [|done].
  by destruct (Expand re [] w) as [[[f [err|]] w']|].
Qed.

(** The parser always returns. *)
Lemma ParseStringRule_returns rule w :
  exists r w', ParseStringRule rule w = Ret (r, w').
Proof.
  destruct (rule_shape_total rule) as (head & arg & Hshape).
  rewrite (ParseStringRule_shape _ _ _ _ Hshape).
  destruct (handlers_get _ _); [by eauto|].
  case_decide; [|by eauto].
  destruct arg as [a|]; [|by eauto].
  destruct (regexp_Compile a) as [re|err]; [|by eauto].
  unfold Expand. case_decide; simpl; by eauto.
Qed.

(** Parsing leaves the [Transform] and the process state as they are. *)
Lemma ParseStringRule_self rule w r w' :
  ParseStringRule rule w = Ret (r, w') -> self w' = self w /\ env w' = env w.
Proof.
  destruct (rule_shape_total rule) as (head & arg & Hshape).
  rewrite (ParseStringRule_shape _ _ _ _ Hshape).
  destruct (handlers_get _ _); [by intros [= _ <-]|].
  case_decide; [|by intros [= _ <-]].
  destruct arg as [a|]; [|by intros [= _ <-]].
  destruct (regexp_Compile a) as [re|err]; [|by intros [= _ <-]].
  unfold Expand. case_decide; simpl; by intros [= _ <-].
Qed.

(** C7: a tag found in the registry gives its handler, whatever the
    argument.  A tag that is not found gives an error, except for
    ["expand"] with an argument that compiles and has a group [key]: the
    error is "expand: missing regex" without an argument, the wrapped
    error of the compiler for an argument that does not compile, and
    "unknown transform: <tag>" for any other tag. *)
Theorem ParseStringRule_spec rule head arg w :
  rule_shape rule head arg ->
  let tag := strings.ToLower unicode_ToLower (strings.TrimSpace head) in
  let h := handlers_get (t_Handlers (self w)) tag in
  (forall f, h = Some f -> ParseStringRule rule w = Ret ((Some f, None), w))
  /\ (h = None -> tag <> "expand" ->
      ParseStringRule rule w
      = Ret ((None, Some (errors_New ("unknown transform: " +:+ tag))), w))
  /\ (h = None -> tag = "expand" -> arg = None ->
      ParseStringRule rule w
      = Ret ((None, Some (errors_New "expand: missing regex")), w))
  /\ (forall a err,
        h = None -> tag = "expand" -> arg = Some a ->
        regexp_Compile a = inr err ->
        ParseStringRule rule w
        = Ret ((None, Some (errors_Wrap err ("regexp: " +:+ a))), w))
  /\ (forall a re,
        h = None -> tag = "expand" -> arg = Some a ->
        regexp_Compile a = inl re ->
        re_SubexpIndex re "key" = (-1)%Z ->
        ParseStringRule rule w
        = Ret ((None,
                Some (errors_New
                        ("regexp is missing named parenthesized subexpression (?P<key>...): "
                         +:+ re_String re))), w))
  /\ (forall a re,
        h = None -> tag = "expand" -> arg = Some a ->
        regexp_Compile a = inl re ->
        re_SubexpIndex re "key" <> (-1)%Z ->
        ParseStringRule rule w
        = Ret ((Some (ExpandFunc re (re_SubexpIndex re "key")
                        (length (captured w))), None),
               {| self := self w;
                  captured := captured w ++ [[]];
                  env := env w |}))
  /\ ((exists f err w', ParseStringRule rule w = Ret ((f, Some err), w'))
      <-> h = None
          /\ ~ (tag = "expand"
                /\ exists a re,
                     arg = Some a /\ regexp_Compile a = inl re
                     /\ re_SubexpIndex re "key" <> (-1)%Z)).
Proof.
  intros Hshape tag h. rewrite (ParseStringRule_shape _ _ _ _ Hshape).
  fold tag. fold h.
  split; [by intros f ->|].
  split; [intros -> Htag; by rewrite decide_False|].
  split; [intros -> Htag ->; by rewrite decide_True|].
  split; [intros a err -> Htag -> ->; by rewrite decide_True|].
  split.
  { intros a re -> Htag -> -> Hidx. rewrite decide_True by done.
    unfold Expand. by rewrite decide_True. }
  split.
  { intros a re -> Htag -> -> Hidx. rewrite decide_True by done.
    unfold Expand. by rewrite decide_False. }
  split.
  - intros (f & err & w' & Hparse).
    destruct h; [done|]. split; [done|].
    intros (Htag & a & re & -> & Hre & Hidx).
    rewrite decide_True, Hre in Hparse by done.
    unfold Expand in Hparse. by rewrite decide_False in Hparse.
  - intros [-> Hno]. case_decide as Htag; [|by do 3 eexists].
    destruct arg as [a|]; [|by do 3 eexists].
    destruct (regexp_Compile a) as [re|err] eqn:Hre; [|by do 3 eexists].
    unfold Expand. case_decide as Hidx; [by do 3 eexists|].
    destruct Hno. split; [done|]. by exists a, re.
Qed.
End rule_parser.

Section add_rules.
Context `{GoRuntime}.

Lemma AddStringRules_pieces_add_parsed pieces w :
  AddStringRules_pieces pieces w
  = add_parsed (filter (fun s => s <> "") (strings.TrimSpace <$> pieces)) w.
Proof.
  revert w. induction pieces as [|s pieces IH]; intros w; [done|].
  rewrite fmap_cons, filter_cons. cbn [AddStringRules_pieces].
  case_decide; [|done]. cbn [add_parsed]. unfold bind.
  destruct (ParseStringRule _ w) as [[[f [err|]] w1]|]; simpl; [done| |done].
  by rewrite IH.
Qed.

Lemma add_parsed_app subs more w :
  add_parsed (subs ++ more) w
  = match add_parsed subs w with
    | Ret (None, w') => add_parsed more w'
    | o => o
    end.
Proof.
  revert w. induction subs as [|s subs IH]; intros w; [done|].
  cbn [app add_parsed]. unfold bind.
  destruct (ParseStringRule s w) as [[[f [err|]] w1]|]; simpl; [done| |done].
  by rewrite IH.
Qed.

(** The two nested loops go through the sub-rules in order. *)
Lemma AddStringRules_add_parsed rules w :
  AddStringRules rules w = add_parsed (subrules rules) w.
Proof.
  revert w. induction rules as [|r rules IH]; intros w; [done|].
  unfold subrules. cbn [mbind list_bind]. rewrite fmap_app, filter_app.
  rewrite add_parsed_app, <- AddStringRules_pieces_add_parsed.
  cbn [AddStringRules]. unfold bind.
  destruct (AddStringRules_pieces _ w) as [[[err|] w1]|]; [done| |done].
  by rewrite IH.
Qed.

Lemma add_parsed_parses subs w fs w' more :
  parses subs w fs w' ->
  add_parsed (subs ++ more) w = add_parsed more w'.
Proof.
  induction 1 as [|s subs w f w1 fs w2 Hparse _ IH]; [done|].
  cbn [app add_parsed]. unfold bind. rewrite Hparse. simpl. by rewrite <- IH.
Qed.

(** The parsed funcs are appended to [Rules] in the order of the sub-rules. *)
Lemma parses_Rules subs w fs w' :
  parses subs w fs w' ->
  t_Rules (self w') = t_Rules (self w) ++ fs
  /\ length fs = length subs.
Proof.
  induction 1 as [|s subs w f w1 fs w2 Hparse _ [IH Hlen]]; [by rewrite app_nil_r|].
  apply ParseStringRule_self in Hparse as [Hself _].
  rewrite IH. simpl. rewrite Hself, <- app_assoc. by rewrite Hlen.
Qed.

(** Either every sub-rule parses, or there is a first one that does not. *)
Lemma parses_or_fails subs w :
  (exists fs w', parses subs w fs w')
  \/ (exists pre s post fs w1 f err w2,
        subs = pre ++ s :: post
        /\ parses pre w fs w1
        /\ ParseStringRule s w1 = Ret ((f, Some err), w2)).
Proof.
  revert w. induction subs as [|s subs IH]; intros w.
  { left. exists [], w. constructor. }
  destruct (ParseStringRule_returns s w) as ([f [err|]] & w1 & Hparse).
  - right. exists [], s, subs, [], w, f, err, w1. repeat split; [constructor|done].
  - destruct (IH (with_rule f w1))
      as [(fs & w' & Hfs)|(pre & s' & post & fs & w2 & f' & err & w3 & -> & Hfs & Hs')].
    + left. exists (f :: fs), w'. by econstructor.
    + right. exists (s :: pre), s', post, (f :: fs), w2, f', err, w3.
      repeat split; [by econstructor|done].
Qed.

(** C6: [AddStringRules] cuts every argument at its commas, trims the
    pieces and leaves out the empty ones; the sub-rules that remain are
    parsed in order, each parsed func being appended to [Rules].  When
    all parse the call returns nil; at the first that does not it returns
    the error of the parser, and the funcs of the sub-rules before it
    stay in [Rules].  One of the two always happens. *)
Theorem AddStringRules_spec rules w :
  (forall fs w',
      parses (subrules rules) w fs w' ->
      AddStringRules rules w = Ret (None, w')
      /\ t_Rules (self w') = t_Rules (self w) ++ fs
      /\ length fs = length (subrules rules))
  /\ (forall pre s post fs w1 f err w2,
        subrules rules = pre ++ s :: post ->
        parses pre w fs w1 ->
        ParseStringRule s w1 = Ret ((f, Some err), w2) ->
        AddStringRules rules w = Ret (Some err, w2)
        /\ t_Rules (self w2) = t_Rules (self w) ++ fs
        /\ length fs = length pre)
  /\ ((exists fs w', parses (subrules rules) w fs w')
      \/ (exists pre s post fs w1 f err w2,
            subrules rules = pre ++ s :: post
            /\ parses pre w fs w1
            /\ ParseStringRule s w1 = Ret ((f, Some err), w2))).
Proof.
  split; [|split; [|apply parses_or_fails]]; rewrite AddStringRules_add_parsed.
  - intros fs w' Hparses. split; [|by apply parses_Rules].
    rewrite <- (app_nil_r (subrules rules)).
    by rewrite (add_parsed_parses _ _ _ _ _ Hparses).
  - intros pre s post fs w1 f err w2 -> Hparses Hparse. split.
    + rewrite (add_parsed_parses _ _ _ _ _ Hparses).
      cbn [add_parsed]. unfold bind. by rewrite Hparse.
    + apply ParseStringRule_self in Hparse as [-> _]. by apply parses_Rules.
Qed.
End add_rules.

(** ** The properties on the example runtime *)

Section examples.
Import example.

(** [Expand] accepts the pattern [a|(?P<key>b)], which has a group
    [key]; on ["a"] the one match is [[0; 1; -1; -1]] and the call of the
    func panics. *)
Lemma Expand_func_key_outside_match_witness :
  Expand optional_key.re [Some map_NAME] (zero ∅)
  = Ret ((Some (ExpandFunc optional_key.re 1 0), None), expanded [Some map_NAME])
  /\ re_FindAllStringSubmatchIndex optional_key.re "a" = [[0; 1; -1; -1]%Z]
  /\ call (ExpandFunc optional_key.re 1 0) "a" (expanded [Some map_NAME])
     = Panic "slice bounds out of range".
Proof.
  split; [reflexivity|]. split; [reflexivity|].
  exact (proj1 (Expand_func_key_outside_match optional_key.re [Some map_NAME]
                  (zero ∅) _ _ "a" _ _ (expanded [Some map_NAME])
                  eq_refl eq_refl eq_refl eq_refl)).
Defined.

(** C2 as it is stated fails: before the map that has ["X"], the lookup
    of [LookupStatic("")] reports found with the empty value, and
    expanding [${X}] fails instead of giving ["1"]. *)
Lemma static_empty_lookup_reports_found :
  LookupStatic "" no_env "X" = ("", true)
  /\ Expand shellvar.re [Some (LookupStatic ""); Some map_X] (zero ∅)
     = Ret ((Some (ExpandFunc shellvar.re 1 0), None),
            expanded [Some (LookupStatic ""); Some map_X])
  /\ call (ExpandFunc shellvar.re 1 0) "${X}"
       (expanded [Some (LookupStatic ""); Some map_X])
     = Ret (("", Some (errors_New "could not resolve variable: X")),
            expanded [Some (LookupStatic ""); Some map_X])
  /\ ~ (exists w',
           call (ExpandFunc shellvar.re 1 0) "${X}"
             (expanded [Some (LookupStatic ""); Some map_X])
           = Ret (("1", None), w')).
Proof.
  split; [reflexivity|]. split; [reflexivity|]. split; [reflexivity|].
  by intros [w' [=]].
Qed.

(** The same two lists of lookups on the input ["${X}"]. *)
Lemma lookup_order_first_found_witness :
  call (ExpandFunc shellvar.re 1 0) "${X}"
    (expanded [Some (LookupStatic ""); Some map_X])
  = Ret (("", Some (errors_New "could not resolve variable: X")),
         expanded [Some (LookupStatic ""); Some map_X])
  /\ call (ExpandFunc shellvar.re 1 0) "${X}"
       (expanded [Some (LookupHandlers None); Some map_X])
     = Ret (("1", None), expanded [Some (LookupHandlers None); Some map_X]).
Proof.
  split.
  - refine (proj1 (proj2 (proj2
      (lookup_order_first_found shellvar.re 1 0
         (expanded [Some (LookupStatic ""); Some map_X]) ref_X "" _ eq_refl)))
      eq_refl).
    vm_compute. repeat split.
  - refine (proj2 (proj2 (proj2
      (lookup_order_first_found shellvar.re 1 0
         (expanded [Some (LookupHandlers None); Some map_X]) ref_X "" _ eq_refl)))
      (LookupHandlers None) _ eq_refl).
    + vm_compute. repeat split.
    + reflexivity.
Defined.

(** With the case tables of the example runtime, which leave U+FFFD alone. *)
Lemma Capitalize_first_byte_witness :
  Capitalize e_acute = (U_FFFD +:+ U_FFFD, None)
  /\ fst (Capitalize e_acute) <> E_acute.
Proof.
  exact (proj2 (proj2 (proj2 (proj2 (proj2 Capitalize_first_byte)))
                  eq_refl eq_refl)).
Defined.

(** The pipeline [Upcase, <always fails>, Downcase] on ["abc"]: the
    counter shows two calls, [Downcase] was not run. *)
Lemma Transform_in_order_witness :
  Transform_Transform "abc"
    [Some (counting mUpcase); Some always_fails; Some (counting mDowncase)]
    (zero ∅)
  = Ret (("", Some (errors_Wrap (errors_New "boom") "rule")),
         {| self := self (zero ∅); captured := []; env := (∅, 2%nat) |}).
Proof.
  refine (proj1 (proj2 (Transform_in_order "abc"
                   [Some (counting mUpcase); Some always_fails;
                    Some (counting mDowncase)] (zero ∅))
            [Some (counting mUpcase)] always_fails [Some (counting mDowncase)]
            "ABC" {| self := self (zero ∅); captured := []; env := (∅, 1%nat) |}
            "ABC" _ _ eq_refl _ eq_refl)).
  eapply steps_call; [reflexivity|]. apply steps_nil.
Defined.

(** [AddStringRules("trim, upcase,,bogus,nop", "nop")] after a reset: two
    rules are appended, then ["bogus"] stops the call. *)
Lemma AddStringRules_spec_witness :
  AddStringRules ["trim, upcase,,bogus,nop"; "nop"] reset
  = Ret (Some (errors_New "unknown transform: bogus"),
         with_rule (Some (MethodValue mUpcase))
           (with_rule (Some (MethodValue mTrim)) reset))
  /\ t_Rules (self (with_rule (Some (MethodValue mUpcase))
                      (with_rule (Some (MethodValue mTrim)) reset)))
     = [Some (MethodValue mTrim); Some (MethodValue mUpcase)].
Proof.
  destruct (proj1 (proj2 (AddStringRules_spec ["trim, upcase,,bogus,nop"; "nop"]
                            reset))
              ["trim"; "upcase"] "bogus" ["nop"; "nop"]
              [Some (MethodValue mTrim); Some (MethodValue mUpcase)]
              (with_rule (Some (MethodValue mUpcase))
                 (with_rule (Some (MethodValue mTrim)) reset))
              None (errors_New "unknown transform: bogus")
              (with_rule (Some (MethodValue mUpcase))
                 (with_rule (Some (MethodValue mTrim)) reset))
              eq_refl) as (Hcall & Hrules & _).
  - apply (parses_cons _ _ _ _ reset); [reflexivity|].
    apply (parses_cons _ _ _ _ (with_rule (Some (MethodValue mTrim)) reset));
      [reflexivity|].
    apply parses_nil.
  - reflexivity.
  - split; [exact Hcall|reflexivity].
Defined.

(** The four outcomes of the parser on a [Transform] after a reset. *)
Lemma ParseStringRule_spec_witness :
  ParseStringRule "expand:(?P<key>" reset
  = Ret ((None,
          Some (errors_Wrap (syntax_Error "missing closing )" "(?P<key>")
                  "regexp: (?P<key>")), reset)
  /\ ParseStringRule "bogus" reset
     = Ret ((None, Some (errors_New "unknown transform: bogus")), reset)
  /\ ParseStringRule "expand" reset
     = Ret ((None, Some (errors_New "expand: missing regex")), reset)
  /\ ParseStringRule " Trim : ignored" reset
     = Ret ((Some (MethodValue mTrim), None), reset).
Proof.
  split; [|split; [|split]].
  - refine (proj1 (proj2 (proj2 (proj2
      (ParseStringRule_spec "expand:(?P<key>" "expand" (Some "(?P<key>") reset _))))
      "(?P<key>" _ eq_refl eq_refl eq_refl eq_refl).
    by apply (shape_arg "expand" "(?P<key>").
  - refine (proj1 (proj2
      (ParseStringRule_spec "bogus" "bogus" None reset _)) eq_refl _).
    + by apply shape_tag.
    + discriminate.
  - refine (proj1 (proj2 (proj2
      (ParseStringRule_spec "expand" "expand" None reset _)))
      eq_refl eq_refl eq_refl).
    by apply shape_tag.
  - refine (proj1
      (ParseStringRule_spec " Trim : ignored" " Trim " (Some " ignored") reset _)
      (MethodValue mTrim) eq_refl).
    by apply (shape_arg " Trim " " ignored").
Defined.

(** A pipeline whose only func fails. *)
Lemma error_with_empty_string_witness :
  exists r err w',
    Transform_Transform "abc" [Some always_fails] (zero ∅)
    = Ret ((r, Some err), w')
    /\ r = "".
Proof.
  exists "", (errors_Wrap (errors_New "boom") "rule"),
    {| self := self (zero ∅); captured := []; env := (∅, 1%nat) |}.
  split; [reflexivity|].
  exact (proj1 error_with_empty_string "abc" [Some always_fails] (zero ∅)
           "" _ _ eq_refl).
Defined.

(** [EDITOR] set to the empty string: the next lookup answers. *)
Lemma LookupEnv_empty_value_witness :
  LookupEnv editor_empty "EDITOR" = ("", false)
  /\ resolve [Some LookupEnv; Some (LookupStatic "vi")] "EDITOR"
       editor_empty
     = Ret "vi".
Proof.
  destruct (LookupEnv_empty_value editor_empty "EDITOR" eq_refl)
    as (Hfound & _ & Hrest).
  split; [exact Hfound|]. rewrite Hrest. reflexivity.
Defined.

(** A template with two occurrences of ["%s"], and one with none. *)
Lemma LookupStatic_template_witness :
  LookupStatic "<%s:%s>" no_env "KEY" = ("<KEY:KEY>", true)
  /\ LookupStatic "100%" no_env "KEY" = ("100%", true).
Proof.
  split.
  - refine (proj1 (proj2 (proj2 (LookupStatic_template "<%s:%s>" no_env "KEY")))
              ["<"; ":"; ">"] _ eq_refl).
    by repeat constructor.
  - exact (proj1 (proj2 (LookupStatic_template "100%" no_env "KEY")) eq_refl).
Defined.
End examples.

(** * Further properties of the package *)

(** ** What a call leaves alone *)

Section store_invariants.
Context `{GoRuntime}.
Implicit Types (w : World) (f : TransformFunc).

Lemma captured_ff_insert_ne c c' ff w :
  c <> c' ->
  captured_ff c {| self := self w;
                   captured := <[c' := ff]> (captured w);
                   env := env w |}
  = captured_ff c w.
Proof. intros Hne. unfold captured_ff. simpl. by rewrite list_lookup_insert_ne. Qed.

(** [assign_lookups] touches an empty cell only. *)
Lemma assign_lookups_keeps c c' w :
  length (captured (assign_lookups c' w)) = length (captured w)
  /\ (captured_ff c w <> [] -> captured_ff c (assign_lookups c' w) = captured_ff c w).
Proof.
  unfold assign_lookups. case_decide as Hc'; [|done]. simpl.
  split; [by rewrite length_insert|].
  intros Hc. apply captured_ff_insert_ne. intros ->.
  by destruct (captured_ff c' w).
Qed.

(** A call never writes to the [Transform]; it makes no new cell and
    leaves every cell that holds lookups as it is. *)
Lemma call_keeps f s w r w' :
  call f s w = Ret (r, w') ->
  self w' = self w
  /\ length (captured w') = length (captured w)
  /\ (forall c, captured_ff c w <> [] -> captured_ff c w' = captured_ff c w).
Proof.
  destruct f as [m|re idx c0|g]; cbn [call].
  - by intros [= _ <-].
  - unfold ExpandFunc_call. case_decide; [by intros [= _ <-]|].
    destruct (expand_loop _ _ _ _ _ _ _); [|done]. intros [= _ <-].
    split; [apply self_assign_lookups|].
    split; [apply assign_lookups_keeps; exact 0%nat|].
    intros c. apply assign_lookups_keeps.
  - destruct (g s (env w)) as [r' e']. by intros [= _ <-].
Qed.

Lemma Transform_loop_keeps ff s w r w' :
  Transform_loop ff s w = Ret (r, w') ->
  self w' = self w
  /\ length (captured w') = length (captured w)
  /\ (forall c, captured_ff c w <> [] -> captured_ff c w' = captured_ff c w).
Proof.
  revert s w. induction ff as [|[f|] ff IH]; intros s w; cbn [Transform_loop].
  - by intros [= _ <-].
  - unfold bind. destruct (call f s w) as [[[s1 err] w1]|] eqn:Hcall; [|done].
    apply call_keeps in Hcall as (Hself & Hlen & Hcells).
    destruct err as [e|]; simpl.
    + by intros [= _ <-].
    + intros (Hself' & Hlen' & Hcells')%IH.
      split; [congruence|]. split; [congruence|].
      intros c Hc. rewrite Hcells' by (by rewrite Hcells). by apply Hcells.
  - apply IH.
Qed.

(** A call of a func of the package leaves the process state alone. *)
Lemma call_package_func f s w r w' :
  package_func (Some f) ->
  call f s w = Ret (r, w') ->
  env w' = env w.
Proof.
  destruct f as [m|re idx c0|g]; cbn [call package_func]; [| |done]; intros _.
  - by intros [= _ <-].
  - unfold ExpandFunc_call. case_decide; [by intros [= _ <-]|].
    destruct (expand_loop _ _ _ _ _ _ _); [|done]. intros [= _ <-].
    apply env_assign_lookups.
Qed.

(** What [assign_lookups] writes: [t.Lookups], to an empty cell. *)
Lemma assign_lookups_writes c c' w :
  captured_ff c (assign_lookups c' w) = captured_ff c w
  \/ (captured_ff c w = []
      /\ captured_ff c (assign_lookups c' w) = t_Lookups (self w)).
Proof.
  unfold assign_lookups. case_decide as Hc'; [|by left].
  destruct (decide (c = c')) as [->|Hne].
  - destruct (decide (c' < length (captured w))%nat) as [Hlt|Hge].
    + right. split; [by destruct (captured_ff c' w)|].
      unfold captured_ff. simpl. by rewrite list_lookup_insert_eq.
    + left. unfold captured_ff. simpl. by rewrite list_insert_ge by lia.
  - left. by apply captured_ff_insert_ne.
Qed.

Lemma call_writes f s w r w' c :
  call f s w = Ret (r, w') ->
  captured_ff c w' = captured_ff c w
  \/ (captured_ff c w = [] /\ captured_ff c w' = t_Lookups (self w)).
Proof.
  destruct f as [m|re idx c0|g]; cbn [call].
  - intros [= _ <-]. by left.
  - unfold ExpandFunc_call. case_decide; [intros [= _ <-]; by left|].
    destruct (expand_loop _ _ _ _ _ _ _); [|done]. intros [= _ <-].
    apply assign_lookups_writes.
  - destruct (g s (env w)) as [r' e']. intros [= _ <-]. by left.
Qed.

Lemma Transform_loop_package ff s w r w' :
  Forall package_func ff ->
  Transform_loop ff s w = Ret (r, w') ->
  env w' = env w
  /\ forall c,
       captured_ff c w' = captured_ff c w
       \/ (captured_ff c w = [] /\ captured_ff c w' = t_Lookups (self w)).
Proof.
  intros Hff. revert s w.
  induction Hff as [|[f|] ff Hf Hff IH]; intros s w; cbn [Transform_loop].
  - intros [= _ <-]. split; [done|]. by left.
  - unfold bind. destruct (call f s w) as [[[s1 err] w1]|] eqn:Hcall; [|done].
    pose proof (call_package_func _ _ _ _ _ Hf Hcall) as Henv.
    pose proof (proj1 (call_keeps _ _ _ _ _ Hcall)) as Hself.
    pose proof (fun c => call_writes _ _ _ _ _ c Hcall) as Hcells.
    destruct err as [e|]; simpl.
    + by intros [= _ <-].
    + intros (Henv' & Hcells')%IH. split; [congruence|].
      intros c. destruct (Hcells c) as [H1|[H1 H1']],
        (Hcells' c) as [H2|[H2 H2']]; rewrite ?Hself in *.
      * left. congruence.
      * right. split; congruence.
      * right. split; congruence.
      * right. split; congruence.
  - apply IH.
Qed.

(** X1: a call of [Transform] that returns, with or without error, and
    whose funcs are funcs of the package (method values and funcs made by
    [Expand], with lookups that only read the process state; no func
    written by the caller), leaves the configuration and the process
    state as they were: [Handlers], [Lookups] and [Rules] are the same,
    no func literal is made, the lookups already captured by a func
    literal stay captured, and the only write is the one of line 218: a
    captured [ff] that was empty may have taken [t.Lookups]. *)
Theorem Transform_keeps_configuration s ff w r w' :
  Forall package_func (functions_used ff w) ->
  Transform_Transform s ff w = Ret (r, w') ->
  self w' = self w
  /\ env w' = env w
  /\ length (captured w') = length (captured w)
  /\ (forall c, captured_ff c w <> [] -> captured_ff c w' = captured_ff c w)
  /\ (forall c,
        captured_ff c w' = captured_ff c w
        \/ (captured_ff c w = [] /\ captured_ff c w' = t_Lookups (self w))).
Proof.
  rewrite Transform_Transform_loop. intros Hff Hrun.
  destruct (Transform_loop_keeps _ _ _ _ _ Hrun) as (Hself & Hlen & Hkept).
  destruct (Transform_loop_package _ _ _ _ _ Hff Hrun) as [Henv Hcells].
  done.
Qed.
End store_invariants.

(** ** The lookups of a func made by [Expand] *)

Section lookups_in_effect.
Context `{GoRuntime}.
Implicit Types (w : World).

(** A call on an input with a match, in terms of the loop. *)
Lemma call_ExpandFunc_some re idx c s w :
  re_FindAllStringSubmatchIndex re s <> [] ->
  call (ExpandFunc re idx c) s w
  = match expand_loop idx (captured_ff c (assign_lookups c w)) (env w) s
            (re_FindAllStringSubmatchIndex re s) "" 0
    with
    | Ret r => Ret (r, assign_lookups c w)
    | Panic msg => Panic msg
    end.
Proof.
  intros Hm. cbn [call]. unfold ExpandFunc_call.
  rewrite decide_False by (by destruct (re_FindAllStringSubmatchIndex re s)).
  by rewrite env_assign_lookups.
Qed.

(** [Expand] adds one cell, which holds the lookups given. *)
Lemma Expand_cell re ff w0 f w1 :
  Expand re ff w0 = Ret ((Some f, None), w1) ->
  captured w1 = captured w0 ++ [ff].
Proof. unfold Expand. case_decide; [done|]. by intros [= _ <-]. Qed.

(** The lookups a call works with are the lookups in effect. *)
Lemma captured_ff_in_effect c w :
  (c < length (captured w))%nat ->
  captured_ff c (assign_lookups c w) = lookups_in_effect c w.
Proof.
  intros Hc. rewrite captured_ff_assign by done. unfold lookups_in_effect.
  by destruct (captured_ff c w).
Qed.

(** X2: what a func made by [Expand] does when group [key] takes part in
    every match and no lookup in effect is nil.  The func is called on a
    store that has its captured variable; the lookups in effect are the
    captured ones, or [t.Lookups] at the time of the call when none was
    captured.  An input without a match comes back as it is and the store
    is not touched.  On an input with matches whose index slices locate
    the references [os], the call fails with
    "could not resolve variable: <key>" for the first reference whose key
    has no found value or an empty first found value, and otherwise
    replaces every matched span by the value of its key and keeps the
    text between the matches; the store afterwards is the one the
    assignment of line 218 leaves. *)
Theorem Expand_func_spec re ff w0 f w1 :
  Expand re ff w0 = Ret ((Some f, None), w1) ->
  let idx := re_SubexpIndex re "key" in
  let c := length (captured w0) in
  forall w,
    (c < length (captured w))%nat ->
    (forall s,
        re_FindAllStringSubmatchIndex re s = [] ->
        call f s w = Ret ((s, None), w))
    /\ (forall os rest (ffl : list LookupFunc),
          os <> [] ->
          located idx 0 os (re_FindAllStringSubmatchIndex re (text os rest)) ->
          lookups_in_effect c w = Some <$> ffl ->
          (Exists (fun o => unresolved ffl (env w) (o_key o)) os ->
           exists pre o post,
             os = pre ++ o :: post
             /\ Forall (fun o => ~ unresolved ffl (env w) (o_key o)) pre
             /\ unresolved ffl (env w) (o_key o)
             /\ call f (text os rest) w
                = Ret (("", Some (errors_New
                                    ("could not resolve variable: " +:+ o_key o))),
                       assign_lookups c w))
          /\ (Forall (fun o => ~ unresolved ffl (env w) (o_key o)) os ->
              call f (text os rest) w
              = Ret ((replaced (value ffl (env w)) os rest, None),
                     assign_lookups c w))).
Proof.
  intros (-> & _)%Expand_returns idx c w Hc. split.
  - intros s Hs. cbn [call]. unfold ExpandFunc_call. by rewrite Hs.
  - intros os rest ffl Hos Hloc Hff.
    rewrite <- captured_ff_in_effect in Hff by done. split.
    + intros (pre & o & post & -> & Hpre & Ho)%first_unresolved.
      exists pre, o, post. repeat split; try done.
      by apply call_ExpandFunc_unresolved with ffl.
    + intros Hall. by apply call_ExpandFunc_resolved.
Qed.

(** X3: a func made by [Expand] without lookups takes the [Lookups] of
    the [Transform] at its first call on an input with a match, and keeps
    them: after [ResetLookups] a later call still resolves with the old
    lookups, not with the new ones. *)
Theorem Expand_default_lookups_frozen re w0 f w1 :
  Expand re [] w0 = Ret ((Some f, None), w1) ->
  forall w s,
    captured w = captured w1 ->
    t_Lookups (self w) <> [] ->
    re_FindAllStringSubmatchIndex re s <> [] ->
    call f s w
    = match expand_loop (re_SubexpIndex re "key") (t_Lookups (self w)) (env w) s
              (re_FindAllStringSubmatchIndex re s) "" 0
      with
      | Ret r => Ret (r, assign_lookups (length (captured w0)) w)
      | Panic msg => Panic msg
      end
    /\ forall r w2 lookups' s',
         call f s w = Ret (r, w2) ->
         re_FindAllStringSubmatchIndex re s' <> [] ->
         (do _ <- ResetLookups lookups'; call f s') w2
         = match expand_loop (re_SubexpIndex re "key") (t_Lookups (self w))
                   (env w2) s' (re_FindAllStringSubmatchIndex re s') "" 0
           with
           | Ret r' =>
             Ret (r', {| self := {| t_Handlers := t_Handlers (self w2);
                                    t_Lookups := lookups';
                                    t_Rules := t_Rules (self w2) |};
                         captured := captured w2;
                         env := env w2 |})
           | Panic msg => Panic msg
           end.
Proof.
  intros Hexp w s Hw Hl Hm.
  pose proof (Expand_cell _ _ _ _ _ Hexp) as Hcells.
  apply Expand_returns in Hexp as (-> & _ & Hcell & _).
  set (c := length (captured w0)) in *.
  assert (c < length (captured w))%nat as Hlt.
  { rewrite Hw, Hcells, length_app. simpl. unfold c. lia. }
  assert (captured_ff c w = []) as Hnil.
  { unfold captured_ff in *. by rewrite Hw. }
  assert (captured_ff c (assign_lookups c w) = t_Lookups (self w)) as Heff.
  { rewrite captured_ff_assign, Hnil by done. by rewrite decide_True. }
  rewrite call_ExpandFunc_some, Heff by done.
  split; [done|].
  intros r w2 lookups' s' Hcall Hm'.
  assert (captured_ff c w2 = t_Lookups (self w) /\ env w2 = env w2) as [Hw2 _].
  { split; [|done]. destruct (expand_loop _ _ _ _ _ _ _); [|done].
    by injection Hcall as _ <-. }
  set (w3 := {| self := _; captured := captured w2; env := env w2 |}).
  change ((do _ <- ResetLookups lookups';
           call (ExpandFunc re (re_SubexpIndex re "key") c) s') w2)
    with (call (ExpandFunc re (re_SubexpIndex re "key") c) s' w3).
  rewrite call_ExpandFunc_some by done.
  assert (assign_lookups c w3 = w3) as ->.
  { unfold assign_lookups. change (captured_ff c w3) with (captured_ff c w2).
    rewrite Hw2. rewrite decide_False; [done|]. by destruct (t_Lookups (self w)). }
  change (captured_ff c w3) with (captured_ff c w2). by rewrite Hw2.
Qed.
End lookups_in_effect.

(** ** Configuration: [New], [Reset], [Handler], [ExpandEnv] *)

Section configuration.
Context `{GoRuntime}.
Implicit Types (w : World).

(** The map that [ResetHandlers] installs, read tag by tag. *)
Lemma builtin_handlers tag :
  handlers_get builtin_Handlers tag = MethodValue <$> builtin tag.
Proof.
  unfold handlers_get, builtin_Handlers, builtin.
  repeat case_decide; subst; by simplify_map_eq.
Qed.

Lemma apply_options_app (a b : list TransformOption) w :
  apply_options (a ++ b) w = (do _ <- apply_options a; apply_options b) w.
Proof.
  revert w. induction a as [|o a IH]; intros w; [done|].
  cbn [app apply_options]. unfold bind.
  destruct (o w) as [[[] w1]|]; [|done]. rewrite IH. by unfold bind.
Qed.

(** X4: [Reset] forgets the whole old configuration: from any
    [Transform] it gives what [New] gives from scratch.  Without options
    this is the built-in handlers, no lookups and no rules, on which
    [Transform] is the identity; options are applied from left to right. *)
Theorem Reset_forgets ff w :
  Reset ff w = New ff w
  /\ (exists w',
        Reset [] w = Ret (tt, w')
        /\ (forall tag,
              handlers_get (t_Handlers (self w')) tag = MethodValue <$> builtin tag)
        /\ t_Lookups (self w') = [] /\ t_Rules (self w') = []
        /\ captured w' = captured w /\ env w' = env w
        /\ forall s, Transform_Transform s [] w' = Ret ((s, None), w'))
  /\ (forall a b,
        ff = a ++ b -> Reset ff w = (do _ <- Reset a; apply_options b) w).
Proof.
  split; [done|]. split.
  - eexists. split; [reflexivity|]. split; [apply builtin_handlers|]. done.
  - intros a b ->. unfold Reset, bind. simpl.
    rewrite apply_options_app. unfold bind. done.
Qed.

(** The store after [t.Handlers[tag] = f] or [delete(t.Handlers, tag)]. *)
Lemma Handler_store tag f w :
  tag <> "" ->
  Handler tag f w
  = Ret (tt, {| self := {| t_Handlers :=
                             Some (match f with
                                   | None =>
                                     delete (strings.ToLower unicode_ToLower tag)
                                            (default ∅ (t_Handlers (self w)))
                                   | Some _ =>
                                     <[strings.ToLower unicode_ToLower tag := f]>
                                       (default ∅ (t_Handlers (self w)))
                                   end);
                           t_Lookups := t_Lookups (self w);
                           t_Rules := t_Rules (self w) |};
                captured := captured w;
                env := env w |}).
Proof. intros Htag. unfold Handler, bind, get_self. by rewrite decide_True. Qed.

Lemma handlers_get_insert h tag f tag' :
  handlers_get (Some (<[tag := Some f]> (default ∅ h))) tag'
  = if decide (tag = tag') then Some f else handlers_get h tag'.
Proof.
  unfold handlers_get. rewrite lookup_insert. case_decide; [done|].
  destruct h; [done|]. simpl. by rewrite lookup_empty.
Qed.

Lemma handlers_get_delete h tag tag' :
  handlers_get (Some (delete tag (default ∅ h))) tag'
  = if decide (tag = tag') then None else handlers_get h tag'.
Proof.
  unfold handlers_get. rewrite lookup_delete. case_decide; [done|].
  destruct h; [done|]. simpl. by rewrite lookup_empty.
Qed.

(** X5: [Handler] registers under the lower-cased tag: afterwards this
    tag names the func given (nothing, when nil was given), every other
    tag names what it named before, and lookups, rules and the rest of the
    store are as before.  With the empty tag nothing changes at all. *)
Theorem Handler_registers tag f w :
  tag <> "" ->
  let key := strings.ToLower unicode_ToLower tag in
  (exists w',
      Handler tag f w = Ret (tt, w')
      /\ handlers_get (t_Handlers (self w')) key = f
      /\ (forall tag',
            tag' <> key ->
            handlers_get (t_Handlers (self w')) tag'
            = handlers_get (t_Handlers (self w)) tag')
      /\ t_Lookups (self w') = t_Lookups (self w)
      /\ t_Rules (self w') = t_Rules (self w)
      /\ captured w' = captured w /\ env w' = env w)
  /\ Handler "" f w = Ret (tt, w).
Proof.
  intros Htag key. split; [|done].
  eexists. split; [by apply Handler_store|]. cbn [self t_Handlers]. fold key.
  destruct f as [f|].
  - split; [by rewrite handlers_get_insert, decide_True|].
    split; [|done]. intros tag' Hne. by rewrite handlers_get_insert, decide_False.
  - split; [by rewrite handlers_get_delete, decide_True|].
    split; [|done]. intros tag' Hne. by rewrite handlers_get_delete, decide_False.
Qed.

(** X6: what is registered is what the parser finds.  After
    [Handler(tag, f)], a rule whose trimmed lower-cased tag is the
    lower-cased [tag] parses to [f], argument or not: this holds for the
    tag ["expand"] too, whose pattern is then not compiled.  After
    [Handler(tag, nil)] such a rule is an unknown transform, unless the tag
    is ["expand"]. *)
Theorem registered_handler_is_parsed tag rule head arg w :
  tag <> "" ->
  rule_shape rule head arg ->
  strings.ToLower unicode_ToLower (strings.TrimSpace head)
  = strings.ToLower unicode_ToLower tag ->
  (forall f,
      exists w',
        Handler tag (Some f) w = Ret (tt, w')
        /\ (do _ <- Handler tag (Some f); ParseStringRule rule) w
           = Ret ((Some f, None), w'))
  /\ (strings.ToLower unicode_ToLower tag <> "expand" ->
      exists w',
        Handler tag None w = Ret (tt, w')
        /\ (do _ <- Handler tag None; ParseStringRule rule) w
           = Ret ((None,
                   Some (errors_New
                           ("unknown transform: "
                            +:+ strings.ToLower unicode_ToLower tag))), w')).
Proof.
  intros Htag Hshape Hkey. split.
  - intros f. eexists. split; [by apply Handler_store|].
    unfold bind at 1. rewrite Handler_store by done.
    rewrite (ParseStringRule_shape _ _ _ _ Hshape). cbn [self t_Handlers].
    by rewrite Hkey, handlers_get_insert, decide_True.
  - intros Hne. eexists. split; [by apply Handler_store|].
    unfold bind at 1. rewrite Handler_store by done.
    rewrite (ParseStringRule_shape _ _ _ _ Hshape). cbn [self t_Handlers].
    rewrite Hkey, handlers_get_delete, decide_True by done.
    by rewrite decide_False.
Qed.

Lemma expand_rule_shape : rule_shape ("expand:" +:+ ShellVar) "expand" (Some ShellVar).
Proof. by apply (shape_arg "expand" ShellVar). Qed.

Lemma expand_tag :
  strings.ToLower unicode_ToLower (strings.TrimSpace "expand") = "expand".
Proof. reflexivity. Qed.

(** What [ExpandEnv] does when no handler is registered under ["expand"]
    and [ShellVar] compiles to a pattern with group [key]. *)
Lemma ExpandEnv_store re w :
  regexp_Compile ShellVar = inl re ->
  re_SubexpIndex re "key" <> (-1)%Z ->
  handlers_get (t_Handlers (self w)) "expand" = None ->
  ExpandEnv w
  = Ret (tt, {| self := {| t_Handlers := t_Handlers (self w);
                           t_Lookups := t_Lookups (self w) ++ [Some LookupEnv];
                           t_Rules :=
                             t_Rules (self w)
                             ++ [Some (ExpandFunc re (re_SubexpIndex re "key")
                                         (length (captured w)))] |};
                captured := captured w ++ [[]];
                env := env w |}).
Proof.
  intros Hre Hidx Hh. unfold ExpandEnv. unfold bind at 1.
  rewrite (ParseStringRule_shape _ _ _ _ expand_rule_shape), expand_tag, Hh.
  rewrite decide_True, Hre by done. unfold Expand. by rewrite decide_False.
Qed.

(** X7: [ExpandEnv] parses the rule "expand:" and [ShellVar].  With no
    handler under ["expand"], it appends the func of the compiled pattern to
    [Rules] and the lookup of [LookupEnv] to [Lookups]; it panics when the
    pattern does not compile.  With a handler registered under ["expand"],
    it is this handler that is appended. *)
Theorem ExpandEnv_appends w :
  (forall re,
      regexp_Compile ShellVar = inl re ->
      re_SubexpIndex re "key" <> (-1)%Z ->
      handlers_get (t_Handlers (self w)) "expand" = None ->
      ExpandEnv w
      = Ret (tt, {| self := {| t_Handlers := t_Handlers (self w);
                               t_Lookups := t_Lookups (self w) ++ [Some LookupEnv];
                               t_Rules :=
                                 t_Rules (self w)
                                 ++ [Some (ExpandFunc re (re_SubexpIndex re "key")
                                             (length (captured w)))] |};
                    captured := captured w ++ [[]];
                    env := env w |}))
  /\ (forall err,
        regexp_Compile ShellVar = inr err ->
        handlers_get (t_Handlers (self w)) "expand" = None ->
        ExpandEnv w = Panic ("regexp: " +:+ ShellVar +:+ ": " +:+ Error err))
  /\ (forall g,
        handlers_get (t_Handlers (self w)) "expand" = Some g ->
        ExpandEnv w
        = Ret (tt, {| self := {| t_Handlers := t_Handlers (self w);
                                 t_Lookups := t_Lookups (self w) ++ [Some LookupEnv];
                                 t_Rules := t_Rules (self w) ++ [Some g] |};
                      captured := captured w;
                      env := env w |})).
Proof.
  split; [intros re; apply ExpandEnv_store|]. split.
  - intros err Hre Hh. unfold ExpandEnv. unfold bind at 1.
    rewrite (ParseStringRule_shape _ _ _ _ expand_rule_shape), expand_tag, Hh.
    by rewrite decide_True, Hre.
  - intros g Hh. unfold ExpandEnv. unfold bind at 1.
    rewrite (ParseStringRule_shape _ _ _ _ expand_rule_shape), expand_tag, Hh.
    done.
Qed.

Lemma value_LookupEnv e key : value [LookupEnv] e key = os_Getenv e key.
Proof.
  unfold value. rewrite first_found_cons. unfold LookupEnv.
  case_decide as Hv; simpl; [done|]. by destruct (decide (os_Getenv e key = "")).
Qed.

Lemma replaced_ext (f g : string -> string) os rest :
  (forall key, f key = g key) -> replaced f os rest = replaced g os rest.
Proof.
  intros Hfg. induction os as [|o os IH]; [done|].
  cbn [replaced]. by rewrite Hfg, IH.
Qed.

(** X8: after [New(ExpandEnv())], [Transform] replaces every reference
    to a variable by the value of the variable in the environment, when
    all of them are set to a value that is not empty; the first reference
    to a variable that is not set, or set to the empty string, makes it
    fail with "rule: could not resolve variable: <name>". *)
Theorem ExpandEnv_expands_environment re w0 os rest :
  regexp_Compile ShellVar = inl re ->
  re_SubexpIndex re "key" <> (-1)%Z ->
  os <> [] ->
  located (re_SubexpIndex re "key") 0 os
    (re_FindAllStringSubmatchIndex re (text os rest)) ->
  exists w,
    New [ExpandEnv] w0 = Ret (tt, w)
    /\ (Forall (fun o => os_Getenv (env w0) (o_key o) <> "") os ->
        exists w',
          Transform_Transform (text os rest) [] w
          = Ret ((replaced (os_Getenv (env w0)) os rest, None), w'))
    /\ (forall pre o post,
          os = pre ++ o :: post ->
          Forall (fun o => os_Getenv (env w0) (o_key o) <> "") pre ->
          os_Getenv (env w0) (o_key o) = "" ->
          exists w',
            Transform_Transform (text os rest) [] w
            = Ret (("", Some (errors_Wrap
                                (errors_New
                                   ("could not resolve variable: " +:+ o_key o))
                                "rule")), w')).
Proof.
  intros Hre Hidx Hos Hloc.
  set (c := length (captured w0)).
  set (f := ExpandFunc re (re_SubexpIndex re "key") c).
  set (w := {| self := {| t_Handlers := builtin_Handlers;
                          t_Lookups := [Some LookupEnv];
                          t_Rules := [Some f] |};
               captured := captured w0 ++ [[]];
               env := env w0 |}).
  assert (New [ExpandEnv] w0 = Ret (tt, w)) as HNew.
  { set (wr := {| self := {| t_Handlers := builtin_Handlers;
                             t_Lookups := []; t_Rules := [] |};
                  captured := captured w0;
                  env := env w0 |}).
    change (New [ExpandEnv] w0)
      with (match ExpandEnv wr with
            | Ret (_, w') => Ret (tt, w')
            | Panic msg => Panic msg
            end).
    by rewrite (ExpandEnv_store re wr) by (done || apply (builtin_handlers "expand")). }
  exists w. split; [exact HNew|].
  assert (captured_ff c (assign_lookups c w) = Some <$> [LookupEnv]) as Hff.
  { rewrite captured_ff_assign.
    - unfold captured_ff. simpl. unfold c.
      by rewrite lookup_app_r, Nat.sub_diag.
    - simpl. rewrite length_app. simpl. unfold c. lia. }
  assert (forall o, unresolved [LookupEnv] (env w) (o_key o)
                    <-> os_Getenv (env w0) (o_key o) = "") as Hun.
  { intros o. by rewrite unresolved_value, value_LookupEnv. }
  split.
  - intros Hall. eexists. rewrite Transform_Transform_loop.
    change (functions_used [] w) with [Some f].
    cbn [Transform_loop]. unfold bind. unfold f.
    rewrite (call_ExpandFunc_resolved re _ c w os rest [LookupEnv]); try done.
    + simpl. by rewrite (replaced_ext _ (os_Getenv (env w0))) by apply value_LookupEnv.
    + eapply Forall_impl; [exact Hall|]. intros o Ho. by rewrite Hun.
  - intros pre o post -> Hpre Ho. eexists. rewrite Transform_Transform_loop.
    change (functions_used [] w) with [Some f].
    cbn [Transform_loop]. unfold bind. unfold f.
    rewrite (call_ExpandFunc_unresolved re _ c w pre o post rest [LookupEnv]);
      try done.
    + eapply Forall_impl; [exact Hpre|]. intros o' Ho'. by rewrite Hun.
    + by rewrite Hun.
Qed.
End configuration.

(** ** Rules given as strings *)

Section separators.
Implicit Types (s cur p : string) (ch c : ascii).

Lemma prefix_char ch c s :
  String.prefix (String ch "") (String c s) = bool_decide (ch = c).
Proof. by rewrite prefix_cons, prefix_nil, andb_true_r. Qed.

Lemma Contains_char_cons ch c s :
  strings.Contains (String c s) (String ch "")
  = bool_decide (ch = c) || strings.Contains s (String ch "").
Proof. by rewrite Contains_cons, prefix_char. Qed.

Lemma Contains_char_rev_app ch cur s :
  strings.Contains (String.rev_app cur s) (String ch "")
  = strings.Contains cur (String ch "") || strings.Contains s (String ch "").
Proof.
  revert s. induction cur as [|c cur IH]; intros s; [done|].
  cbn [String.rev_app]. rewrite IH, !Contains_char_cons.
  by destruct (bool_decide (ch = c)), (strings.Contains cur _),
    (strings.Contains s _).
Qed.

(** A string without the separator is one piece. *)
Lemma genSplit_char_absent ch cur s :
  strings.Contains s (String ch "") = false ->
  strings.genSplit (String ch "") None 0 cur s = [String.rev_app cur s].
Proof.
  revert cur. induction s as [|c s IH]; intros cur Hs; [done|].
  rewrite Contains_char_cons in Hs. apply orb_false_iff in Hs as [Hc Hs].
  cbn [strings.genSplit]. by rewrite prefix_char, Hc, IH.
Qed.

(** No piece of a split holds the separator. *)
Lemma genSplit_char_pieces ch cur s :
  strings.Contains cur (String ch "") = false ->
  Forall (fun p => strings.Contains p (String ch "") = false)
         (strings.genSplit (String ch "") None 0 cur s).
Proof.
  revert cur. induction s as [|c s IH]; intros cur Hcur.
  - constructor; [|done]. unfold String.rev.
    by rewrite Contains_char_rev_app, Hcur.
  - cbn [strings.genSplit]. rewrite prefix_char.
    destruct (bool_decide (ch = c)) eqn:Hc.
    + constructor; [|by apply IH]. unfold String.rev.
      by rewrite Contains_char_rev_app, Hcur.
    + apply IH. by rewrite Contains_char_cons, Hc, Hcur.
Qed.

(** A piece, the separator, and more: the piece is cut off. *)
Lemma genSplit_char_first ch cur p rest :
  strings.Contains p (String ch "") = false ->
  strings.genSplit (String ch "") None 0 cur (p +:+ String ch "" +:+ rest)
  = String.rev_app cur p :: strings.genSplit (String ch "") None 0 "" rest.
Proof.
  revert cur. induction p as [|c p IH]; intros cur Hp.
  - rewrite str_app_nil_l. change (String ch "" +:+ rest) with (String ch rest).
    cbn [strings.genSplit]. by rewrite prefix_char, bool_decide_eq_true_2.
  - rewrite Contains_char_cons in Hp. apply orb_false_iff in Hp as [Hc Hp].
    rewrite str_app_cons. cbn [strings.genSplit].
    by rewrite prefix_char, Hc, IH.
Qed.

Lemma Split_char_absent ch s :
  strings.Contains s (String ch "") = false ->
  strings.Split s (String ch "") = [s].
Proof. intros Hs. unfold strings.Split, strings.SplitN. simpl.
       by rewrite genSplit_char_absent. Qed.

Lemma Split_char_pieces ch s :
  Forall (fun p => strings.Contains p (String ch "") = false)
         (strings.Split s (String ch "")).
Proof. unfold strings.Split, strings.SplitN. simpl. by apply genSplit_char_pieces. Qed.

(** Splitting what was joined gives the pieces back. *)
Lemma Split_Join_char ch names :
  names <> [] ->
  Forall (fun p => strings.Contains p (String ch "") = false) names ->
  strings.Split (strings.Join names (String ch "")) (String ch "") = names.
Proof.
  intros Hne Hall. induction Hall as [|p [|q names] Hp Hall IH]; [done|..].
  - by apply Split_char_absent.
  - change (strings.Join (p :: q :: names) (String ch ""))
      with (p +:+ String ch "" +:+ strings.Join (q :: names) (String ch "")).
    unfold strings.Split, strings.SplitN in *. simpl in *.
    rewrite genSplit_char_first by done. f_equal. by apply IH.
Qed.

(** Splitting the pieces of a split changes nothing. *)
Lemma Split_char_twice ch s :
  (strings.Split s (String ch "") ≫= fun p => strings.Split p (String ch ""))
  = strings.Split s (String ch "").
Proof.
  pose proof (Split_char_pieces ch s) as Hall.
  induction Hall as [|p ps Hp _ IH]; [done|].
  cbn [mbind list_bind]. rewrite Split_char_absent by done.
  simpl. f_equal. exact IH.
Qed.
End separators.

Section string_rules.
Context `{GoRuntime}.
Implicit Types (w : World).

Lemma subrules_app a b : subrules (a ++ b) = subrules a ++ subrules b.
Proof. unfold subrules. by rewrite bind_app, fmap_app, filter_app. Qed.

Lemma subrules_pieces rules :
  subrules (rules ≫= fun r => strings.Split r ",") = subrules rules.
Proof.
  induction rules as [|r rules IH]; [done|].
  cbn [mbind list_bind]. rewrite subrules_app, IH.
  change (r :: rules) with ([r] ++ rules). rewrite subrules_app. f_equal.
  unfold subrules. cbn [mbind list_bind]. rewrite !app_nil_r.
  by rewrite (Split_char_twice "," r).
Qed.

(** X9: for [AddStringRules] it is all the same whether sub-rules come
    in one argument, separated by commas, or in arguments of their own;
    and a call with the arguments [a] followed by [b] is the call with [a],
    then, unless it returned an error, the call with [b]. *)
Theorem AddStringRules_arguments rules w :
  AddStringRules rules w
  = AddStringRules (rules ≫= fun r => strings.Split r ",") w
  /\ (forall a b,
        rules = a ++ b ->
        AddStringRules rules w
        = match AddStringRules a w with
          | Ret (None, w') => AddStringRules b w'
          | o => o
          end).
Proof.
  split.
  - by rewrite !AddStringRules_add_parsed, subrules_pieces.
  - intros a b ->. rewrite AddStringRules_add_parsed, subrules_app, add_parsed_app.
    rewrite <- AddStringRules_add_parsed.
    destruct (AddStringRules a w) as [[[err|] w']|]; [done| |done].
    by rewrite AddStringRules_add_parsed.
Qed.

Lemma with_rules_cons f fs w :
  with_rules (f :: fs) w = with_rules fs (with_rule f w).
Proof. unfold with_rules, with_rule. simpl. by rewrite <- app_assoc. Qed.

Lemma with_rules_nil w : with_rules [] w = w.
Proof. unfold with_rules. rewrite app_nil_r. by destruct w as [[]]. Qed.

(** The name of a method parses to the method when the registry is the
    built-in one. *)
Lemma ParseStringRule_method_name m w :
  (forall tag, handlers_get (t_Handlers (self w)) tag = MethodValue <$> builtin tag) ->
  ParseStringRule (method_name m) w = Ret ((Some (MethodValue m), None), w).
Proof.
  intros Hh.
  assert (rule_shape (method_name m) (method_name m) None) as Hshape.
  { apply shape_tag. by destruct m. }
  rewrite (ParseStringRule_shape _ _ _ _ Hshape).
  assert (strings.ToLower unicode_ToLower (strings.TrimSpace (method_name m))
          = method_name m) as -> by (by destruct m).
  rewrite Hh. by destruct m.
Qed.

Lemma add_parsed_method_names ms w :
  (forall tag, handlers_get (t_Handlers (self w)) tag = MethodValue <$> builtin tag) ->
  add_parsed (method_name <$> ms) w
  = Ret (None, with_rules ((fun m => Some (MethodValue m)) <$> ms) w).
Proof.
  revert w. induction ms as [|m ms IH]; intros w Hh.
  - by rewrite with_rules_nil.
  - rewrite !fmap_cons. cbn [add_parsed]. unfold bind at 1.
    rewrite ParseStringRule_method_name by done. simpl.
    change ((do _ <- append_rule (Some (MethodValue m));
             add_parsed (method_name <$> ms)) w)
      with (add_parsed (method_name <$> ms) (with_rule (Some (MethodValue m)) w)).
    rewrite IH by done. by rewrite with_rules_cons.
Qed.

Lemma subrules_method_names ms :
  subrules [strings.Join (method_name <$> ms) ","] = method_name <$> ms.
Proof.
  unfold subrules. cbn [mbind list_bind]. rewrite app_nil_r.
  destruct ms as [|m ms]; [done|].
  rewrite (Split_Join_char ","); [|done|].
  - induction (m :: ms) as [|m' ms' IH]; [done|].
    rewrite !fmap_cons, filter_cons, IH.
    assert (strings.TrimSpace (method_name m') = method_name m') as ->
        by (by destruct m').
    rewrite decide_True; [done|]. by destruct m'.
  - apply Forall_fmap, Forall_forall. intros m' _. by destruct m'.
Qed.

(** A pipeline of methods gives their composition and touches nothing. *)
Lemma Transform_loop_methods ms s w :
  Transform_loop ((fun m => Some (MethodValue m)) <$> ms) s w
  = Ret ((apply_methods ms s, None), w).
Proof.
  revert s. induction ms as [|m ms IH]; intros s; [done|].
  rewrite fmap_cons. cbn [Transform_loop call]. unfold bind, ret.
  assert (snd (method_call m s) = None) as ->.
  { destruct m; try done. simpl. unfold Capitalize. by case_decide. }
  by rewrite IH.
Qed.

(** X10: on a [Transform] with the built-in handlers, the names of
    methods joined by commas are parsed to these methods, appended to
    [Rules] in the order given; when there was no rule before, [Transform]
    then applies them one after the other, from left to right, and
    neither fails nor changes anything. *)
Theorem AddStringRules_method_names ms w :
  (forall tag, handlers_get (t_Handlers (self w)) tag = MethodValue <$> builtin tag) ->
  let rule := strings.Join (method_name <$> ms) "," in
  let w' := with_rules ((fun m => Some (MethodValue m)) <$> ms) w in
  AddStringRules [rule] w = Ret (None, w')
  /\ (t_Rules (self w) = [] ->
      forall s,
        (do _ <- AddStringRules [rule]; Transform_Transform s []) w
        = Ret ((apply_methods ms s, None), w')).
Proof.
  intros Hh rule w'.
  assert (AddStringRules [rule] w = Ret (None, w')) as Hadd.
  { unfold rule. rewrite AddStringRules_add_parsed, subrules_method_names.
    by apply add_parsed_method_names. }
  split; [done|]. intros Hnone s. unfold bind at 1. rewrite Hadd.
  rewrite Transform_Transform_loop.
  assert (functions_used [] w' = (fun m => Some (MethodValue m)) <$> ms) as ->.
  { unfold functions_used, w', with_rules. simpl. by rewrite Hnone. }
  apply Transform_loop_methods.
Qed.
End string_rules.

(** ** The methods on ASCII input *)

Section ascii_methods.
Context `{GoRuntime}.
Implicit Types (s p q : string) (c : ascii).
Local Open Scope Z_scope.

Lemma upper_byte_ascii c :
  strings.is_ascii c = true -> strings.is_ascii (strings.upper_byte c) = true.
Proof. by destruct c as [[] [] [] [] [] [] [] []]. Qed.

Lemma lower_byte_ascii c :
  strings.is_ascii c = true -> strings.is_ascii (strings.lower_byte c) = true.
Proof. by destruct c as [[] [] [] [] [] [] [] []]. Qed.

Lemma upper_byte_twice c :
  strings.upper_byte (strings.upper_byte c) = strings.upper_byte c.
Proof. by destruct c as [[] [] [] [] [] [] [] []]. Qed.

Lemma lower_byte_twice c :
  strings.lower_byte (strings.lower_byte c) = strings.lower_byte c.
Proof. by destruct c as [[] [] [] [] [] [] [] []]. Qed.

Lemma str_map_ascii (f : ascii -> ascii) s :
  (forall c, strings.is_ascii c = true -> strings.is_ascii (f c) = true) ->
  ascii_only s -> ascii_only (strings.str_map f s).
Proof.
  intros Hf. unfold ascii_only. induction s as [|c s IH]; [done|].
  cbn [strings.str_forallb strings.str_map].
  intros [Hc Hs]%andb_true_iff. by rewrite Hf, IH.
Qed.

Lemma str_map_length (f : ascii -> ascii) s :
  String.length (strings.str_map f s) = String.length s.
Proof. induction s as [|c s IH]; [done|]. simpl. by rewrite IH. Qed.

Lemma str_map_twice (f : ascii -> ascii) s :
  (forall c, f (f c) = f c) ->
  strings.str_map f (strings.str_map f s) = strings.str_map f s.
Proof. intros Hf. induction s as [|c s IH]; [done|]. simpl. by rewrite Hf, IH. Qed.

(** On ASCII input the case functions are byte loops: the tables of
    package [unicode] are not asked. *)
Lemma ToUpper_ascii s :
  ascii_only s ->
  strings.ToUpper unicode_ToUpper s = strings.str_map strings.upper_byte s.
Proof. intros Hs. unfold strings.ToUpper. by rewrite Hs. Qed.

Lemma ToLower_ascii s :
  ascii_only s ->
  strings.ToLower unicode_ToLower s = strings.str_map strings.lower_byte s.
Proof. intros Hs. unfold strings.ToLower. by rewrite Hs. Qed.

Lemma Capitalize_ascii c s :
  ascii_only (String c s) ->
  Capitalize (String c s)
  = (String (strings.upper_byte c) (strings.str_map strings.lower_byte s), None).
Proof.
  unfold ascii_only. cbn [strings.str_forallb]. intros [Hc Hs]%andb_true_iff.
  unfold Capitalize. rewrite decide_False by done. cbn [str_take str_drop].
  rewrite ToUpper_ascii, ToLower_ascii; [done|done|].
  unfold ascii_only. cbn [strings.str_forallb]. by rewrite Hc.
Qed.

(** X11: on a string of ASCII bytes, [NOP], [Downcase], [Upcase] and
    [Capitalize] give a string of ASCII bytes of the same length, and
    applying the same method to the result changes nothing more;
    [Upcase] and [Downcase] map every byte on its own. *)
Theorem case_methods_ascii s :
  ascii_only s ->
  Upcase s = (strings.str_map strings.upper_byte s, None)
  /\ Downcase s = (strings.str_map strings.lower_byte s, None)
  /\ forall m,
       m <> mTrim ->
       let r := fst (method_call m s) in
       ascii_only r
       /\ String.length r = String.length s
       /\ method_call m r = (r, None).
Proof.
  intros Hs.
  assert (Upcase s = (strings.str_map strings.upper_byte s, None)) as Hup.
  { unfold Upcase. by rewrite ToUpper_ascii. }
  assert (Downcase s = (strings.str_map strings.lower_byte s, None)) as Hdown.
  { unfold Downcase. by rewrite ToLower_ascii. }
  split; [done|]. split; [done|].
  intros m Hm. destruct m; cbn [method_call]; try done.
  - rewrite Hdown. cbn [fst].
    split; [by apply str_map_ascii; [apply lower_byte_ascii|]|].
    split; [apply str_map_length|].
    unfold Downcase. rewrite ToLower_ascii
      by (by apply str_map_ascii; [apply lower_byte_ascii|]).
    by rewrite str_map_twice by apply lower_byte_twice.
  - rewrite Hup. cbn [fst].
    split; [by apply str_map_ascii; [apply upper_byte_ascii|]|].
    split; [apply str_map_length|].
    unfold Upcase. rewrite ToUpper_ascii
      by (by apply str_map_ascii; [apply upper_byte_ascii|]).
    by rewrite str_map_twice by apply upper_byte_twice.
  - destruct s as [|c s]; [done|].
    rewrite Capitalize_ascii by done. cbn [fst].
    pose proof Hs as Hs'. unfold ascii_only in Hs'. cbn [strings.str_forallb] in Hs'.
    apply andb_true_iff in Hs' as [Hc Hs'].
    assert (ascii_only (String (strings.upper_byte c)
                          (strings.str_map strings.lower_byte s))) as Hr.
    { unfold ascii_only. cbn [strings.str_forallb].
      rewrite upper_byte_ascii by done.
      by apply (str_map_ascii strings.lower_byte s lower_byte_ascii). }
    split; [done|]. split; [simpl; by rewrite str_map_length|].
    rewrite Capitalize_ascii by done.
    by rewrite upper_byte_twice, str_map_twice by apply lower_byte_twice.
Qed.
End ascii_methods.

(** ** [Trim] on ASCII input *)

Section ascii_trim.
Context `{GoRuntime}.
Implicit Types (s p q t : string) (c : ascii).
Local Open Scope Z_scope.

Lemma forallb_app (f : ascii -> bool) p q :
  strings.str_forallb f (p +:+ q)
  = strings.str_forallb f p && strings.str_forallb f q.
Proof.
  induction p as [|c p IH]; [done|].
  rewrite str_app_cons. cbn [strings.str_forallb]. by rewrite IH, andb_assoc.
Qed.

(** A string is empty or ends with a byte. *)
Lemma str_snoc_inv p : p = "" \/ exists p' c, p = p' +:+ String c "".
Proof.
  induction p as [|c p [->|(p' & c' & ->)]]; [by left|..].
  - right. by exists "", c.
  - right. by exists (String c p'), c'.
Qed.

Lemma str_snoc_inj p c q c' :
  p +:+ String c "" = q +:+ String c' "" -> c = c'.
Proof.
  revert q. induction p as [|a p IH]; intros [|b q]; rewrite ?str_app_cons, ?str_app_nil_l.
  - by intros [= ->].
  - intros [= _ Hq]. by destruct q.
  - intros [= _ Hp]. by destruct p.
  - intros [= _ Hpq]. by apply (IH q).
Qed.

Lemma at_app p c q : utf8.at_ (p +:+ String c q) (len p) = byte_val c.
Proof.
  unfold utf8.at_, len. rewrite Nat2Z.id.
  induction p as [|a p IH]; [done|]. by rewrite str_app_cons.
Qed.

Lemma str_take_len p q : str_take (Z.to_nat (len p)) (p +:+ q) = p.
Proof. unfold len. rewrite Nat2Z.id. apply str_take_app. Qed.

Lemma Decode_ascii c s :
  strings.is_ascii c = true ->
  utf8.DecodeRuneInString (String c s) = (byte_val c, 1%nat).
Proof. intros Hc. unfold utf8.DecodeRuneInString. unfold strings.is_ascii in Hc.
       by rewrite Hc. Qed.

Lemma DecodeLast_ascii p c :
  strings.is_ascii c = true ->
  utf8.DecodeLastRuneInString (p +:+ String c "") = (byte_val c, 1%nat).
Proof.
  intros Hc. unfold utf8.DecodeLastRuneInString.
  rewrite len_app. change (len (String c "")) with 1.
  pose proof (len_nonneg p).
  rewrite (proj2 (Z.eqb_neq _ _)) by lia.
  replace (len p + 1 - 1) with (len p) by lia.
  rewrite at_app. unfold strings.is_ascii in Hc. by rewrite Hc.
Qed.

(** Leading white space. *)
Lemma TrimLeftSpace_ascii s :
  ascii_only s ->
  exists a,
    s = a +:+ strings.TrimLeftSpace s
    /\ all_space a
    /\ ascii_only (strings.TrimLeftSpace s)
    /\ (strings.TrimLeftSpace s = ""
        \/ exists c r, strings.TrimLeftSpace s = String c r /\ space_byte c = false).
Proof.
  unfold strings.TrimLeftSpace. induction s as [|c s IH]; intros Hs.
  { exists "". repeat split; try done. by left. }
  pose proof Hs as Hs'. unfold ascii_only in Hs'. cbn [strings.str_forallb] in Hs'.
  apply andb_true_iff in Hs' as [Hc Hs'].
  cbn [strings.trim_left_from]. rewrite Decode_ascii by done.
  change (1 - 1)%nat with 0%nat.
  fold (space_byte c). destruct (space_byte c) eqn:Hsp.
  - destruct (IH Hs') as (a & Ha & Hall & Hasc & Hhead).
    exists (String c a). rewrite str_app_cons, <- Ha. repeat split; try done.
    unfold all_space. cbn [strings.str_forallb]. by rewrite Hsp.
  - exists "". repeat split; try done. right. by exists c, s.
Qed.

(** The loop of [lastIndexFunc] over ASCII bytes. *)
Lemma last_non_space_ascii fuel p q :
  (String.length p <= fuel)%nat ->
  ascii_only p ->
  let i := strings.last_non_space (p +:+ q) fuel (len p) in
  (i = -1 /\ all_space p)
  \/ (exists p' c p'',
        p = p' +:+ String c p'' /\ i = len p'
        /\ space_byte c = false /\ all_space p'').
Proof.
  revert p q. induction fuel as [|fuel IH]; intros p q Hlen Hp.
  { destruct p; [|simpl in Hlen; lia]. by left. }
  cbn [strings.last_non_space].
  destruct (str_snoc_inv p) as [->|(p0 & c & ->)]; [by left|].
  rewrite len_app. change (len (String c "")) with 1.
  pose proof (len_nonneg p0).
  rewrite (proj2 (Z.leb_gt _ _)) by lia.
  replace (Z.to_nat (len p0 + 1)) with (Z.to_nat (len (p0 +:+ String c "")))
    by (by rewrite len_app).
  rewrite str_take_len.
  unfold ascii_only in Hp. rewrite forallb_app in Hp.
  apply andb_true_iff in Hp as [Hp0 Hc]. cbn [strings.str_forallb] in Hc.
  rewrite andb_true_r in Hc.
  rewrite DecodeLast_ascii by done.
  replace (len p0 + 1 - Z.of_nat 1) with (len p0) by lia.
  fold (space_byte c). destruct (space_byte c) eqn:Hsp.
  - rewrite str_app_assoc.
    destruct (IH p0 (String c "" +:+ q)) as [[Hi Hall]|(p' & c' & p'' & -> & Hi & Hc' & Hall)];
      [rewrite str_length_app in Hlen; simpl in Hlen; lia|done|..].
    + left. split; [done|]. unfold all_space. rewrite forallb_app, Hall.
      cbn [strings.str_forallb]. by rewrite Hsp.
    + right. exists p', c', (p'' +:+ String c "").
      split; [by rewrite !str_app_assoc|]. split; [done|]. split; [done|].
      unfold all_space. rewrite forallb_app, Hall.
      cbn [strings.str_forallb]. by rewrite Hsp.
  - right. by exists p0, c, "".
Qed.

(** Trailing white space. *)
Lemma TrimRightSpace_ascii s :
  ascii_only s ->
  exists t b,
    s = t +:+ b
    /\ strings.TrimRightSpace s = t
    /\ all_space b
    /\ (t = "" \/ exists t' c, t = t' +:+ String c "" /\ space_byte c = false).
Proof.
  intros Hs. unfold strings.TrimRightSpace.
  pose proof (last_non_space_ascii (String.length s) s "" (le_n _) Hs) as Hi.
  rewrite str_app_nil_r in Hi. cbv zeta in Hi.
  destruct Hi as [[-> Hall]|(p' & c & p'' & -> & -> & Hc & Hall)].
  - exists "", s. repeat split; try done. by left.
  - pose proof (len_nonneg p').
    rewrite (proj2 (Z.leb_le _ _)) by done. rewrite at_app.
    unfold ascii_only in Hs. rewrite forallb_app in Hs.
    apply andb_true_iff in Hs as [_ Hs]. cbn [strings.str_forallb] in Hs.
    apply andb_true_iff in Hs as [Hs _]. unfold strings.is_ascii in Hs.
    rewrite (proj2 (Z.leb_gt _ _)) by (by apply Z.ltb_lt). simpl.
    exists (p' +:+ String c ""), p''.
    split; [by rewrite str_app_assoc|]. split.
    + replace (Z.to_nat (len p' + 1)) with (Z.to_nat (len (p' +:+ String c "")))
        by (by rewrite len_app).
      change (p' +:+ String c p'') with (p' +:+ String c "" +:+ p'').
      rewrite <- (str_app_assoc p' (String c "") p''). apply str_take_len.
    + split; [done|]. right. by exists p', c.
Qed.

(** What [Trim] cuts off an ASCII string, and what it leaves. *)
Lemma TrimSpace_ascii s :
  ascii_only s ->
  exists a b,
    s = a +:+ strings.TrimSpace s +:+ b
    /\ all_space a /\ all_space b
    /\ (forall c r, strings.TrimSpace s = String c r -> space_byte c = false)
    /\ (forall r c, strings.TrimSpace s = r +:+ String c "" -> space_byte c = false).
Proof.
  intros Hs. unfold strings.TrimSpace.
  destruct (TrimLeftSpace_ascii s Hs) as (a & Ha & Hall & Hasc & Hhead).
  destruct (TrimRightSpace_ascii _ Hasc) as (t & b & Ht & -> & Hb & Hlast).
  exists a, b. split; [by rewrite <- Ht|]. split; [done|]. split; [done|]. split.
  - intros c r ->. destruct Hhead as [Hl|(c0 & r0 & Hl & Hc0)].
    + rewrite Hl in Ht. by rewrite str_app_cons in Ht.
    + rewrite Hl, str_app_cons in Ht. by injection Ht as -> _.
  - intros r c ->. destruct Hlast as [Ht'|(t' & c' & Ht' & Hc')].
    + by destruct r.
    + by apply str_snoc_inj in Ht' as ->.
Qed.

(** A string that neither starts nor ends with white space is left alone. *)
Lemma TrimSpace_ascii_fixed t :
  ascii_only t ->
  (forall c r, t = String c r -> space_byte c = false) ->
  (forall r c, t = r +:+ String c "" -> space_byte c = false) ->
  strings.TrimSpace t = t.
Proof.
  intros Ht Hfirst Hlast.
  assert (strings.TrimLeftSpace t = t) as Hleft.
  { destruct t as [|c r]; [done|].
    unfold strings.TrimLeftSpace. cbn [strings.trim_left_from].
    unfold ascii_only in Ht. cbn [strings.str_forallb] in Ht.
    apply andb_true_iff in Ht as [Hc _]. rewrite Decode_ascii by done.
    fold (space_byte c). by rewrite (Hfirst c r). }
  unfold strings.TrimSpace. rewrite Hleft.
  destruct (TrimRightSpace_ascii t Ht) as (t1 & b & Heq & -> & Hb & _).
  destruct (str_snoc_inv b) as [->|(b' & c & ->)]; [by rewrite str_app_nil_r in Heq|].
  unfold all_space in Hb. rewrite forallb_app in Hb.
  apply andb_true_iff in Hb as [_ Hc]. cbn [strings.str_forallb] in Hc.
  rewrite andb_true_r in Hc.
  rewrite <- str_app_assoc in Heq. by rewrite (Hlast _ _ Heq) in Hc.
Qed.

Lemma ascii_only_app p q : ascii_only (p +:+ q) <-> ascii_only p /\ ascii_only q.
Proof. unfold ascii_only. by rewrite forallb_app, andb_true_iff. Qed.

(** X12: [Trim] never fails.  On a string of ASCII bytes it cuts off
    white space at both ends and nothing else: what is cut off is white
    space, what is left neither starts nor ends with white space, and
    trimming it once more changes nothing. *)
Theorem Trim_ascii s :
  ascii_only s ->
  snd (Trim s) = None
  /\ (exists a b,
        s = a +:+ fst (Trim s) +:+ b /\ all_space a /\ all_space b)
  /\ (forall c r, fst (Trim s) = String c r -> space_byte c = false)
  /\ (forall r c, fst (Trim s) = r +:+ String c "" -> space_byte c = false)
  /\ Trim (fst (Trim s)) = Trim s.
Proof.
  intros Hs. unfold Trim. cbn [fst snd].
  destruct (TrimSpace_ascii s Hs) as (a & b & Heq & Ha & Hb & Hfirst & Hlast).
  split; [done|]. split; [by exists a, b|]. split; [done|]. split; [done|].
  f_equal. apply TrimSpace_ascii_fixed; [|done..].
  rewrite Heq in Hs. apply ascii_only_app in Hs as [_ Hs].
  by apply ascii_only_app in Hs as [Hs _].
Qed.
End ascii_trim.

(** ** Expansion from a map, and what parsing leaves alone *)

Section map_expansion.
Context `{GoRuntime}.
Implicit Types (w : World).

Lemma value_LookupHandlers m e key :
  value [LookupHandlers m] e key = default "" (default ∅ m !! key).
Proof.
  unfold value. rewrite first_found_cons. unfold LookupHandlers.
  by destruct (default ∅ m !! key).
Qed.

(** X13: a func made by [Expand], called when the lookups in effect
    (its captured ones, or [t.Lookups] when it captured none) are the one
    lookup of [LookupHandlers(m)], on an input where group [key] takes
    part in every match (the index slices locate the references [os]):
    every reference is replaced by the value the map has for its key when
    the map has a value that is not empty for every key; the first key
    that the map does not have (always so for the nil map), or has with
    the empty value, makes the call fail with
    "could not resolve variable: <key>".  The store afterwards is the one
    the assignment of line 218 leaves. *)
Theorem Expand_with_map re ff m w0 f w1 :
  Expand re ff w0 = Ret ((Some f, None), w1) ->
  let c := length (captured w0) in
  forall w os rest,
    (c < length (captured w))%nat ->
    lookups_in_effect c w = [Some (LookupHandlers m)] ->
    os <> [] ->
    located (re_SubexpIndex re "key") 0 os
      (re_FindAllStringSubmatchIndex re (text os rest)) ->
    let val := fun key => default "" (default ∅ m !! key) in
    (Forall (fun o => val (o_key o) <> "") os ->
     call f (text os rest) w
     = Ret ((replaced val os rest, None), assign_lookups c w))
    /\ (forall pre o post,
          os = pre ++ o :: post ->
          Forall (fun o => val (o_key o) <> "") pre ->
          val (o_key o) = "" ->
          call f (text os rest) w
          = Ret (("", Some (errors_New
                              ("could not resolve variable: " +:+ o_key o))),
                 assign_lookups c w)).
Proof.
  intros (-> & _)%Expand_returns c w os rest Hc Heff Hos Hloc val.
  assert (captured_ff c (assign_lookups c w) = Some <$> [LookupHandlers m]) as Hff.
  { by rewrite captured_ff_in_effect. }
  assert (forall o, unresolved [LookupHandlers m] (env w) (o_key o)
                    <-> val (o_key o) = "") as Hun.
  { intros o. by rewrite unresolved_value, value_LookupHandlers. }
  split.
  - intros Hall.
    rewrite (call_ExpandFunc_resolved re _ c w os rest [LookupHandlers m]);
      try done.
    + by rewrite (replaced_ext _ val) by (intros; apply value_LookupHandlers).
    + eapply Forall_impl; [exact Hall|]. intros o Ho. by rewrite Hun.
  - intros pre o post -> Hpre Ho.
    rewrite (call_ExpandFunc_unresolved re _ c w pre o post rest
               [LookupHandlers m]); try done.
    + eapply Forall_impl; [exact Hpre|]. intros o' Ho'. by rewrite Hun.
    + by rewrite Hun.
Qed.
End map_expansion.

Section parsing_invariants.
Context `{GoRuntime}.
Implicit Types (w : World).

(** The parser makes at most one cell, an empty one, and writes nothing else. *)
Lemma ParseStringRule_cells rule w r w' :
  ParseStringRule rule w = Ret (r, w') ->
  self w' = self w /\ env w' = env w
  /\ (captured w' = captured w \/ captured w' = captured w ++ [[]]).
Proof.
  destruct (rule_shape_total rule) as (head & arg & Hshape).
  rewrite (ParseStringRule_shape _ _ _ _ Hshape).
  destruct (handlers_get _ _); [intros [= _ <-]; by auto|].
  case_decide; [|intros [= _ <-]; by auto].
  destruct arg as [a|]; [|intros [= _ <-]; by auto].
  destruct (regexp_Compile a) as [re|err]; [|intros [= _ <-]; by auto].
  unfold Expand. case_decide; simpl; intros [= _ <-]; by auto.
Qed.

Lemma add_parsed_keeps subs w r w' :
  add_parsed subs w = Ret (r, w') ->
  t_Handlers (self w') = t_Handlers (self w)
  /\ t_Lookups (self w') = t_Lookups (self w)
  /\ env w' = env w
  /\ (exists fs,
        t_Rules (self w') = t_Rules (self w) ++ fs
        /\ (length fs <= length subs)%nat
        /\ (is_Some r -> (length fs < length subs)%nat))
  /\ (exists n, captured w' = captured w ++ replicate n []).
Proof.
  revert w. induction subs as [|s subs IH]; intros w.
  { intros [= <- <-]. repeat split; try done.
    - exists []. rewrite app_nil_r. repeat split; [done|]. by intros [? [=]].
    - exists 0%nat. by rewrite app_nil_r. }
  cbn [add_parsed]. unfold bind at 1.
  destruct (ParseStringRule s w) as [[[f [err|]] w1]|] eqn:Hparse; simpl; [| |done].
  - intros [= <- <-]. apply ParseStringRule_cells in Hparse as (Hself & Henv & Hcap).
    rewrite Hself. repeat split; try done.
    + exists []. rewrite app_nil_r. repeat split; simpl; [lia|intros _; lia].
    + destruct Hcap as [->| ->]; [exists 0%nat; by rewrite app_nil_r|by exists 1%nat].
  - change ((do _ <- append_rule f; add_parsed subs) w1)
      with (add_parsed subs (with_rule f w1)).
    intros (Hh & Hl & He & (fs & Hfs & Hlen & Herr) & (n & Hn))%IH.
    apply ParseStringRule_cells in Hparse as (Hself & Henv & Hcap).
    simpl in *. rewrite Hh, Hl, He, Hself. repeat split; try done.
    + exists (f :: fs). rewrite Hfs, Hself, <- app_assoc.
      repeat split; simpl; [lia|]. intros Hr. specialize (Herr Hr). lia.
    + destruct Hcap as [Hcap|Hcap]; rewrite Hcap in Hn.
      * by exists n.
      * exists (S n). by rewrite Hn, <- app_assoc.
Qed.

(** X14: whether it fails or not, [AddStringRules] only appends to
    [Rules] (fewer funcs than there are sub-rules when it fails):
    [Handlers], [Lookups] and the process state are as before, and the
    funcs made before keep their captured lookups. *)
Theorem AddStringRules_only_appends rules w r w' :
  AddStringRules rules w = Ret (r, w') ->
  t_Handlers (self w') = t_Handlers (self w)
  /\ t_Lookups (self w') = t_Lookups (self w)
  /\ env w' = env w
  /\ (exists fs,
        t_Rules (self w') = t_Rules (self w) ++ fs
        /\ (length fs <= length (subrules rules))%nat
        /\ (is_Some r -> (length fs < length (subrules rules))%nat))
  /\ (forall c, (c < length (captured w))%nat -> captured_ff c w' = captured_ff c w).
Proof.
  rewrite AddStringRules_add_parsed.
  intros (Hh & Hl & He & Hfs & (n & Hn))%add_parsed_keeps.
  repeat split; try done.
  intros c Hc. unfold captured_ff. by rewrite Hn, lookup_app_l.
Qed.
End parsing_invariants.

(** ** Splitting a pipeline, and the options [Lookup] and [Rule] *)

Section composition.
Context `{GoRuntime}.
Implicit Types (w : World).

Lemma Transform_loop_app a b s w :
  Transform_loop (a ++ b) s w
  = match Transform_loop a s w with
    | Ret ((s', None), w') => Transform_loop b s' w'
    | o => o
    end.
Proof.
  revert s w. induction a as [|[f|] a IH]; intros s w; [done| |apply IH].
  cbn [app Transform_loop]. unfold bind.
  destruct (call f s w) as [[[s1 [err|]] w1]|]; simpl; [done| |done].
  apply IH.
Qed.

(** X15: one call of [Transform] with the funcs [a] followed by [b] is
    the call with [a], then, unless it failed, the call with [b] on its
    result, provided neither list is empty (an empty list would stand for
    the default [Rules]). *)
Theorem Transform_splits a b s w :
  a <> [] -> b <> [] ->
  Transform_Transform s (a ++ b) w
  = match Transform_Transform s a w with
    | Ret ((s', None), w') => Transform_Transform s' b w'
    | o => o
    end.
Proof.
  intros Ha Hb. rewrite (Transform_Transform_loop s (a ++ b)), (Transform_Transform_loop s a).
  assert (functions_used (a ++ b) w = a ++ b) as -> by (by destruct a).
  assert (functions_used a w = a) as -> by (by destruct a).
  rewrite Transform_loop_app.
  destruct (Transform_loop a s w) as [[[s' [err|]] w']|]; [done| |done].
  rewrite Transform_Transform_loop. by destruct b.
Qed.

(** X16: the options [Lookup] and [Rule] append: two of a kind in a row
    are one with the lists joined, the two kinds do not get in each
    other's way, and neither writes to [Handlers]. *)
Theorem Lookup_Rule_append w :
  (forall a b, (do _ <- Lookup a; Lookup b) w = Lookup (a ++ b) w)
  /\ (forall a b, (do _ <- Rule a; Rule b) w = Rule (a ++ b) w)
  /\ (forall ff rr, (do _ <- Lookup ff; Rule rr) w = (do _ <- Rule rr; Lookup ff) w)
  /\ (forall ff rr,
        (do _ <- Lookup ff; Rule rr) w
        = Ret (tt, {| self := {| t_Handlers := t_Handlers (self w);
                                 t_Lookups := t_Lookups (self w) ++ ff;
                                 t_Rules := t_Rules (self w) ++ rr |};
                      captured := captured w;
                      env := env w |})).
Proof.
  split; [|split; [|split]].
  - intros a b. unfold Lookup, bind, get_self, set_self. simpl. by rewrite app_assoc.
  - intros a b. unfold Rule, bind, get_self, set_self. simpl. by rewrite app_assoc.
  - done.
  - done.
Qed.
End composition.

(** ** The further properties on the example runtime *)

Section more_examples.
Import example sample.

(** [Upcase], then the func of [Expand] with [ShellVar] that captured no
    lookups: the call takes [t.Lookups], and nothing else is written. *)
Lemma Transform_keeps_configuration_witness :
  Transform_Transform "hi ${NAME}"
    [Some (MethodValue mUpcase); Some (ExpandFunc shellvar.re 1 0)]
    (store [Some map_NAME] [])
  = Ret (("HI Ada", None), store [Some map_NAME] [Some map_NAME])
  /\ self (store [Some map_NAME] [Some map_NAME]) = self (store [Some map_NAME] [])
  /\ env (store [Some map_NAME] [Some map_NAME]) = env (store [Some map_NAME] []).
Proof.
  split; [reflexivity|].
  destruct (Transform_keeps_configuration "hi ${NAME}"
              [Some (MethodValue mUpcase); Some (ExpandFunc shellvar.re 1 0)]
              (store [Some map_NAME] []) _ _
              ltac:(repeat constructor) eq_refl)
    as (Hself & Henv & _).
  split; [exact Hself|exact Henv].
Defined.

(** [ShellVar] on an input with one reference, on an input without any,
    on a reference that no lookup knows, and with the lookups of the
    [Transform] when the func captured none. *)
Lemma Expand_func_spec_witness :
  Expand shellvar.re [Some map_NAME] (zero ∅)
  = Ret ((Some (ExpandFunc shellvar.re 1 0), None), expanded [Some map_NAME])
  /\ call (ExpandFunc shellvar.re 1 0) "Hello ${NAME}!" (expanded [Some map_NAME])
     = Ret (("Hello Ada!", None), expanded [Some map_NAME])
  /\ call (ExpandFunc shellvar.re 1 0) "Hello!" (expanded [Some map_NAME])
     = Ret (("Hello!", None), expanded [Some map_NAME])
  /\ call (ExpandFunc shellvar.re 1 0) "${MISSING}" (expanded [Some map_NAME])
     = Ret (("", Some (errors_New "could not resolve variable: MISSING")),
            expanded [Some map_NAME])
  /\ call (ExpandFunc shellvar.re 1 0) "Hello ${NAME}!" (store [Some map_NAME] [])
     = Ret (("Hello Ada!", None), store [Some map_NAME] [Some map_NAME]).
Proof.
  pose proof (Expand_func_spec shellvar.re [Some map_NAME] (zero ∅) _ _ eq_refl
                (expanded [Some map_NAME]) (le_n 1)) as [Hzero Hmatches].
  pose proof (Expand_func_spec shellvar.re [] (zero ∅) _ _ eq_refl
                (store [Some map_NAME] []) (le_n 1)) as [_ Hdefault].
  split; [reflexivity|]. split; [|split; [|split]].
  - refine (proj2 (Hmatches [ref_NAME] "!" [map_NAME] _ _ eq_refl) _).
    + discriminate.
    + vm_compute. repeat split.
    + constructor; [|constructor]. vm_compute. intros [[=]|[=]].
  - apply Hzero. reflexivity.
  - destruct (proj1 (Hmatches [ref_MISSING] "" [map_NAME]
                       ltac:(discriminate) ltac:(vm_compute; repeat split) eq_refl))
      as (pre & o & post & Hos & _ & _ & Hcall).
    + constructor. vm_compute. by left.
    + destruct pre as [|p [|??]]; [|destruct post; discriminate Hos..].
      injection Hos as <- _. exact Hcall.
  - refine (proj2 (Hdefault [ref_NAME] "!" [map_NAME] _ _ eq_refl) _).
    + discriminate.
    + vm_compute. repeat split.
    + constructor; [|constructor]. vm_compute. intros [[=]|[=]].
Defined.

(** The func first runs while [Lookups] holds the map of [NAME], then
    [Lookups] is reset to the map of [X]: [${NAME}] still resolves. *)
Lemma Expand_default_lookups_frozen_witness :
  call (ExpandFunc shellvar.re 1 0) "${NAME}" (store [Some map_NAME] [])
  = Ret (("Ada", None), store [Some map_NAME] [Some map_NAME])
  /\ (do _ <- ResetLookups [Some map_X];
      call (ExpandFunc shellvar.re 1 0) "${NAME}")
       (store [Some map_NAME] [Some map_NAME])
     = Ret (("Ada", None), store [Some map_X] [Some map_NAME]).
Proof.
  pose proof (Expand_default_lookups_frozen shellvar.re (zero ∅) _ _ eq_refl
                (store [Some map_NAME] []) "${NAME}" eq_refl
                ltac:(discriminate) ltac:(discriminate)) as [Hfirst Hlater].
  split; [exact Hfirst|].
  exact (Hlater _ _ [Some map_X] "${NAME}" Hfirst ltac:(discriminate)).
Defined.

(** Registering under ["TRIM"] replaces the built-in [Trim]. *)
Lemma Handler_registers_witness :
  exists w',
    Handler "TRIM" (Some (counting mUpcase)) reset = Ret (tt, w')
    /\ handlers_get (t_Handlers (self w')) "trim" = Some (counting mUpcase)
    /\ handlers_get (t_Handlers (self w')) "upcase" = Some (MethodValue mUpcase).
Proof.
  destruct (proj1 (Handler_registers "TRIM" (Some (counting mUpcase)) reset
                     ltac:(discriminate)))
    as (w' & Hw' & Hkey & Hother & _).
  exists w'. split; [exact Hw'|]. split; [exact Hkey|].
  rewrite (Hother "upcase" ltac:(discriminate)). reflexivity.
Defined.

(** A handler under ["Expand"]: the pattern, which would not compile, is
    not looked at. *)
Lemma registered_handler_is_parsed_witness :
  exists w',
    (do _ <- Handler "Expand" (Some (counting mUpcase));
     ParseStringRule "expand:(?P<key>") reset
    = Ret ((Some (counting mUpcase), None), w').
Proof.
  destruct (proj1 (registered_handler_is_parsed "Expand" "expand:(?P<key>"
                     "expand" (Some "(?P<key>") reset
                     ltac:(discriminate)
                     (shape_arg "expand" "(?P<key>" eq_refl) eq_refl)
              (counting mUpcase))
    as (w' & _ & Hparse).
  exists w'. exact Hparse.
Defined.

(** [New(ExpandEnv())] and a reference to a variable that is set. *)
Lemma ExpandEnv_expands_environment_witness :
  exists w w',
    New [ExpandEnv] name_set = Ret (tt, w)
    /\ Transform_Transform "Hello ${NAME}!" [] w = Ret (("Hello Ada!", None), w').
Proof.
  destruct (ExpandEnv_expands_environment shellvar.re name_set [ref_NAME] "!"
              eq_refl ltac:(discriminate) ltac:(discriminate)
              ltac:(vm_compute; repeat split))
    as (w & HNew & Hset & _).
  destruct (Hset ltac:(repeat constructor; discriminate)) as [w' Hw'].
  exists w, w'. split; [exact HNew|exact Hw'].
Defined.

(** The rule "trim,upcase" on a [Transform] after a reset. *)
Lemma AddStringRules_method_names_witness :
  (do _ <- AddStringRules ["trim,upcase"]; Transform_Transform "  hi  " []) reset
  = Ret (("HI", None),
         with_rules [Some (MethodValue mTrim); Some (MethodValue mUpcase)] reset).
Proof.
  exact (proj2 (AddStringRules_method_names [mTrim; mUpcase] reset
                  builtin_handlers) eq_refl "  hi  ").
Defined.

Lemma case_methods_ascii_witness :
  Upcase "hELLO wORLD" = ("HELLO WORLD", None)
  /\ Downcase "hELLO wORLD" = ("hello world", None)
  /\ Capitalize (fst (Capitalize "hELLO wORLD")) = ("Hello world", None).
Proof.
  destruct (case_methods_ascii "hELLO wORLD" eq_refl) as (Hup & Hdown & Hm).
  split; [exact Hup|]. split; [exact Hdown|].
  exact (proj2 (proj2 (Hm mCapitalize ltac:(discriminate)))).
Defined.

Lemma Trim_ascii_witness :
  Trim "  hi there " = ("hi there", None)
  /\ Trim (fst (Trim "  hi there ")) = ("hi there", None).
Proof.
  destruct (Trim_ascii "  hi there " eq_refl) as (_ & _ & _ & _ & Htwice).
  split; [reflexivity|]. rewrite Htwice. reflexivity.
Defined.

(** The func captured the map of [NAME]; then a func that captured
    nothing, on a [Transform] whose [Lookups] are that map. *)
Lemma Expand_with_map_witness :
  call (ExpandFunc shellvar.re 1 0) "Hello ${NAME}!" (store [] [Some map_NAME])
  = Ret (("Hello Ada!", None), store [] [Some map_NAME])
  /\ call (ExpandFunc shellvar.re 1 0) "${MISSING}" (store [] [Some map_NAME])
     = Ret (("", Some (errors_New "could not resolve variable: MISSING")),
            store [] [Some map_NAME])
  /\ call (ExpandFunc shellvar.re 1 0) "Hello ${NAME}!" (store [Some map_NAME] [])
     = Ret (("Hello Ada!", None), store [Some map_NAME] [Some map_NAME]).
Proof.
  split; [|split].
  - refine (proj1 (Expand_with_map shellvar.re [Some map_NAME]
                     (Some {["NAME" := "Ada"]}) (zero ∅)
                     _ _ eq_refl (store [] [Some map_NAME]) [ref_NAME] "!"
                     (le_n 1) eq_refl ltac:(discriminate) _) _).
    + vm_compute. repeat split.
    + repeat constructor. discriminate.
  - refine (proj2 (Expand_with_map shellvar.re [Some map_NAME]
                     (Some {["NAME" := "Ada"]}) (zero ∅)
                     _ _ eq_refl (store [] [Some map_NAME]) [ref_MISSING] ""
                     (le_n 1) eq_refl ltac:(discriminate) _)
              [] ref_MISSING [] eq_refl _ eq_refl).
    + vm_compute. repeat split.
    + constructor.
  - refine (proj1 (Expand_with_map shellvar.re []
                     (Some {["NAME" := "Ada"]}) (zero ∅)
                     _ _ eq_refl (store [Some map_NAME] []) [ref_NAME] "!"
                     (le_n 1) eq_refl ltac:(discriminate) _) _).
    + vm_compute. repeat split.
    + repeat constructor. discriminate.
Defined.

(** "trim,bogus": one rule is appended before the error. *)
Lemma AddStringRules_only_appends_witness :
  AddStringRules ["trim,bogus"] reset
  = Ret (Some (errors_New "unknown transform: bogus"),
         with_rule (Some (MethodValue mTrim)) reset)
  /\ t_Handlers (self (with_rule (Some (MethodValue mTrim)) reset))
     = t_Handlers (self reset).
Proof.
  split; [reflexivity|].
  exact (proj1 (AddStringRules_only_appends ["trim,bogus"] reset _ _ eq_refl)).
Defined.

(** [Upcase] then a func that fails, in one call or in two. *)
Lemma Transform_splits_witness :
  Transform_Transform "abc" ([Some (counting mUpcase)] ++ [Some always_fails]) reset
  = Transform_Transform "ABC" [Some always_fails]
      {| self := self reset; captured := []; env := (∅, 1%nat) |}.
Proof.
  exact (Transform_splits [Some (counting mUpcase)] [Some always_fails] "abc" reset
           ltac:(discriminate) ltac:(discriminate)).
Defined.
End more_examples.
